(** * Monte Carlo tree search: a shallow embedding of [mcts.py]

    The development follows the Python module function by function.

    - Python numbers (rewards, the exploration weight, the values of
      [math.log] and [math.sqrt]) are exact rationals, [Qc]; visit counts
      are natural numbers.
    - [self.Q] and [self.N] are [defaultdict(int)]: reading an absent key
      stores the default under it.  The model keeps that write.
    - [self.children] is a [dict] whose values are references to [set]
      objects.  Set objects live in a store, so that a mutation through one
      reference is seen through every other.
    - [Node] is an abstract base class; a game provides it, together with a
      source of randomness for [find_random_child].
    - The two [while True] loops take fuel; running out of it stands for a
      loop that has not returned yet. *)

From Stdlib Require Import QArith Qcanon.
From stdpp Require Import base numbers option list gmap sets fin_maps fin_sets infinite.

Local Open Scope Qc_scope.

(** ** Numbers *)

(** A Python [float] as used by the two key functions: a rational, or
    [float("-inf")]. *)
Inductive ext := NegInf | Fin (q : Qc).

Definition Qc_ltb (a b : Qc) : bool :=
  match (this a ?= this b)%Q with Lt => true | _ => false end.

(** [a < b] on keys, the comparison [max] performs. *)
Definition ext_ltb (a b : ext) : bool :=
  match a, b with
  | NegInf, NegInf => false
  | NegInf, Fin _ => true
  | Fin _, NegInf => false
  | Fin x, Fin y => Qc_ltb x y
  end.

Definition ext_le (a b : ext) : Prop := ext_ltb b a = false.

Definition of_nat (n : nat) : Qc := Qc_of_Z (Z.of_nat n).

(** ** The abstract base class [Node] *)

(** [rand] is the state of whatever random source the game draws on. *)
Class NodeABC (Node rand : Type) `{Countable Node} := {
  find_children : Node → gset Node;
  find_random_child : Node → rand → Node * rand;
  is_terminal : Node → bool;
  reward : Node → Qc
}.

(** [math.log] and [math.sqrt] on their domains. *)
Class Math := {
  math_log : Qc → Qc;
  math_sqrt : Qc → Qc;
  math_log_nonneg : ∀ x, 1 <= x → 0 <= math_log x
}.

(** The order in which a [set] hands out its members ([for], [max], [pop]):
    some enumeration of the members, fixed by nothing the program controls. *)
Class SetOrder (Node : Type) `{Countable Node} := {
  set_iter : gset Node → list Node;
  set_iter_elem : ∀ s x, x ∈ set_iter s ↔ x ∈ s
}.

(** ** Exceptions and outcomes *)

Inductive exn :=
  | RuntimeError | KeyError | IndexError | ValueError
  | ZeroDivisionError | AssertionError | SystemError.

Definition loc := positive.

(** ** The machine: the engine object, the set objects, the random source *)

Section Engine.
Context {Node rand : Type} `{Countable Node}.
Context {game : NodeABC Node rand} {math : Math} {order : SetOrder Node}.

(** The attributes [__init__] creates.  [Q_] and [N_] are [self.Q] and
    [self.N]; the values of [children] are references into the store. *)
Record MCTS := mkMCTS {
  Q_ : gmap Node Qc;
  N_ : gmap Node nat;
  children : gmap Node loc;
  exploration_weight : Qc
}.

Record World := mkWorld {
  self : MCTS;
  heap : gmap loc (gset Node);
  rng : rand
}.

Definition __init__ (exploration_weight : Qc) : MCTS :=
  mkMCTS ∅ ∅ ∅ exploration_weight.

Definition set_Q (q : gmap Node Qc) (w : World) : World :=
  mkWorld (mkMCTS q (N_ (self w)) (children (self w))
             (exploration_weight (self w))) (heap w) (rng w).
Definition set_N (n : gmap Node nat) (w : World) : World :=
  mkWorld (mkMCTS (Q_ (self w)) n (children (self w))
             (exploration_weight (self w))) (heap w) (rng w).
Definition set_children (c : gmap Node loc) (w : World) : World :=
  mkWorld (mkMCTS (Q_ (self w)) (N_ (self w)) c
             (exploration_weight (self w))) (heap w) (rng w).
Definition set_heap (h : gmap loc (gset Node)) (w : World) : World :=
  mkWorld (self w) h (rng w).
Definition set_rng (g : rand) (w : World) : World :=
  mkWorld (self w) (heap w) g.

(** What a read of [self.N[n]], [self.Q[n]] yields, and the set recorded
    for [n], if any. *)
Definition getN (w : World) (n : Node) : nat := default 0%nat (N_ (self w) !! n).
Definition getQ (w : World) (n : Node) : Qc := default 0 (Q_ (self w) !! n).
Definition children_of (w : World) (n : Node) : option (gset Node) :=
  children (self w) !! n ≫= λ l, heap w !! l.

(** *** Outcomes and the monad of engine code *)

Inductive result (A : Type) :=
  | Ok (a : A) (w : World)
  | Raise (e : exn) (w : World)
  | OutOfFuel.
Arguments Ok {A} a w.
Arguments Raise {A} e w.
Arguments OutOfFuel {A}.

Definition M (A : Type) : Type := World → result A.

Definition ret {A} (a : A) : M A := λ w, Ok a w.
Definition raise {A} (e : exn) : M A := λ w, Raise e w.
Definition out_of_fuel {A} : M A := λ _, OutOfFuel.
Definition bind {A B} (m : M A) (f : A → M B) : M B := λ w,
  match m w with
  | Ok a w' => f a w'
  | Raise e w' => Raise e w'
  | OutOfFuel => OutOfFuel
  end.

Definition result_map {A B} (f : A → B) (r : result A) : result B :=
  match r with
  | Ok a w => Ok (f a) w
  | Raise e w => Raise e w
  | OutOfFuel => OutOfFuel
  end.

(** The world a call leaves behind, when it comes back at all. *)
Definition final {A} (r : result A) : option World :=
  match r with Ok _ w | Raise _ w => Some w | OutOfFuel => None end.

Notation "'let*' x := c1 'in' c2" := (bind c1 (λ x, c2))
  (at level 10, x name, c1 at level 100, c2 at level 200).
Notation "c1 >> c2" := (bind c1 (λ _, c2))
  (at level 100, c2 at level 200, right associativity).

(** *** Dictionary and set primitives *)

(** [self.N[n]] on a [defaultdict(int)]. *)
Definition N_getitem (n : Node) : M nat := λ w,
  match N_ (self w) !! n with
  | Some v => Ok v w
  | None => Ok 0%nat (set_N (<[n := 0%nat]> (N_ (self w))) w)
  end.
Definition N_setitem (n : Node) (v : nat) : M unit := λ w,
  Ok tt (set_N (<[n := v]> (N_ (self w))) w).

Definition Q_getitem (n : Node) : M Qc := λ w,
  match Q_ (self w) !! n with
  | Some v => Ok v w
  | None => Ok 0 (set_Q (<[n := 0]> (Q_ (self w))) w)
  end.
Definition Q_setitem (n : Node) (v : Qc) : M unit := λ w,
  Ok tt (set_Q (<[n := v]> (Q_ (self w))) w).

(** [n in self.children], [self.children[n]], [self.children[n] = l]. *)
Definition children_contains (n : Node) : M bool := λ w,
  Ok (bool_decide (n ∈ dom (children (self w)))) w.
Definition children_getitem (n : Node) : M loc := λ w,
  match children (self w) !! n with
  | Some l => Ok l w
  | None => Raise KeyError w
  end.
Definition children_setitem (n : Node) (l : loc) : M unit := λ w,
  Ok tt (set_children (<[n := l]> (children (self w))) w).

(** Set objects: reading one, creating one, overwriting one, dropping the
    last reference to one. *)
Definition set_read (l : loc) : M (gset Node) := λ w,
  match heap w !! l with
  | Some s => Ok s w
  | None => Raise SystemError w
  end.
Definition set_new (s : gset Node) : M loc := λ w,
  let l := fresh (dom (heap w)) in Ok l (set_heap (<[l := s]> (heap w)) w).
Definition set_write (l : loc) (s : gset Node) : M unit := λ w,
  Ok tt (set_heap (<[l := s]> (heap w)) w).
Definition set_del (l : loc) : M unit := λ w,
  Ok tt (set_heap (delete l (heap w)) w).

(** [s.pop()]: removes and returns the member the set hands out first. *)
Definition set_pop (l : loc) : M Node :=
  let* s := set_read l in
  match set_iter s with
  | [] => raise KeyError
  | n :: _ => set_write l (s ∖ {[n]}) >> ret n
  end.

Definition get_exploration_weight : M Qc := λ w,
  Ok (exploration_weight (self w)) w.

(** [self.children.keys()]. *)
Definition children_keys : M (gset Node) := λ w,
  Ok (dom (children (self w))) w.

(** [node.find_random_child()] draws on the random source. *)
Definition random_child (node : Node) : M Node := λ w,
  let (n, g) := find_random_child node (rng w) in Ok n (set_rng g w).

(** *** Python operators and builtins *)

(** [a / c] with an integer divisor. *)
Definition py_div (a : Qc) (c : nat) : M Qc :=
  if Nat.eqb c 0 then raise ZeroDivisionError else ret (a / of_nat c).

(** [math.log(c)] of an integer, [math.sqrt(x)]. *)
Definition py_log (c : nat) : M Qc :=
  if Nat.eqb c 0 then raise ValueError else ret (math_log (of_nat c)).
Definition py_sqrt (x : Qc) : M Qc :=
  if Qc_ltb x 0 then raise ValueError else ret (math_sqrt x).

(** [max(it, key=key)]: the key of every item is computed once, in order,
    and an item replaces the running maximum only when its key is strictly
    greater. *)
Fixpoint max_loop (key : Node → M ext) (maxitem : Node) (maxval : ext)
    (it : list Node) : M Node :=
  match it with
  | [] => ret maxitem
  | item :: it' =>
      let* val := key item in
      if ext_ltb maxval val then max_loop key item val it'
      else max_loop key maxitem maxval it'
  end.
Definition py_max (key : Node → M ext) (it : list Node) : M Node :=
  match it with
  | [] => raise ValueError
  | item :: it' => let* val := key item in max_loop key item val it'
  end.

(** [path[-1]]. *)
Definition py_last (path : list Node) : M Node :=
  match last path with
  | Some n => ret n
  | None => raise IndexError
  end.

(** ** The methods of [MCTS] *)

(** The local function [score] of [choose]. *)
Definition score (n : Node) : M ext :=
  let* c := N_getitem n in
  if Nat.eqb c 0 then ret NegInf
  else
    let* q := Q_getitem n in
    let* c' := N_getitem n in
    let* avg := py_div q c' in
    ret (Fin avg).

Definition choose (node : Node) : M Node :=
  if is_terminal node then raise RuntimeError
  else
    let* known := children_contains node in
    if negb known then random_child node
    else
      let* l := children_getitem node in
      let* s := set_read l in
      py_max score (set_iter s).

(** The local function [uct] of [uct_select]. *)
Definition uct (vertex : Qc) (n : Node) : M ext :=
  let* q := Q_getitem n in
  let* c := N_getitem n in
  let* avg := py_div q c in
  let* weight := get_exploration_weight in
  let* c' := N_getitem n in
  let* ratio := py_div vertex c' in
  let* root := py_sqrt ratio in
  ret (Fin (avg + weight * root)).

Definition uct_select (node : Node) : M Node :=
  let* l := children_getitem node in
  let* s := set_read l in
  let* keys := children_keys in
  if negb (forallb (λ n, bool_decide (n ∈ keys)) (set_iter s))
  then raise AssertionError
  else
    let* c := N_getitem node in
    let* vertex := py_log c in
    let* l' := children_getitem node in
    let* s' := set_read l' in
    py_max (uct vertex) (set_iter s').

(** One turn of the loop of [select], up to the call of [uct_select]:
    [inl path] when the loop returns [path], [inr path] when it goes on to
    [uct_select].  The difference of the two sets is a new set object, bound
    to [unexplored] alone, and gone when that name is. *)
Definition select_turn (node : Node) (path : list Node)
    : M (list Node + list Node) :=
  let path := path ++ [node] in
  let* known := children_contains node in
  if negb known then ret (inl path)
  else
    let* l := children_getitem node in
    let* s := set_read l in
    if bool_decide (s = ∅) then ret (inl path)
    else
      let* l' := children_getitem node in
      let* s' := set_read l' in
      let* keys := children_keys in
      let* unexplored := set_new (s' ∖ keys) in
      let* u := set_read unexplored in
      if negb (bool_decide (u = ∅)) then
        let* n := set_pop unexplored in
        set_del unexplored >> ret (inl (path ++ [n]))
      else
        set_del unexplored >> ret (inr path).

Fixpoint select_loop (fuel : nat) (node : Node) (path : list Node)
    : M (list Node) :=
  match fuel with
  | O => out_of_fuel
  | S fuel' =>
      let* r := select_turn node path in
      match r with
      | inl path' => ret path'
      | inr path' =>
          let* node' := uct_select node in
          select_loop fuel' node' path'
      end
  end.

Definition select (fuel : nat) (node : Node) : M (list Node) :=
  select_loop fuel node [].

Definition expand (node : Node) : M unit :=
  let* known := children_contains node in
  if known then ret tt
  else
    let* l := set_new (find_children node) in
    children_setitem node l.

Fixpoint simulate_loop (fuel : nat) (node : Node) (invert_reward : bool)
    : M Qc :=
  match fuel with
  | O => out_of_fuel
  | S fuel' =>
      if is_terminal node then
        let reward := reward node in
        ret (if invert_reward then 1 - reward else reward)
      else
        let* node' := random_child node in
        simulate_loop fuel' node' (negb invert_reward)
  end.

Definition simulate (fuel : nat) (node : Node) : M Qc :=
  simulate_loop fuel node true.

Fixpoint backpropagate_loop (nodes : list Node) (reward : Qc) : M unit :=
  match nodes with
  | [] => ret tt
  | node :: nodes' =>
      let* c := N_getitem node in
      N_setitem node (c + 1) >>
      let* q := Q_getitem node in
      Q_setitem node (q + reward) >>
      backpropagate_loop nodes' (1 - reward)
  end.

Definition backpropagate (path : list Node) (reward : Qc) : M unit :=
  backpropagate_loop (reverse path) reward.

Definition rollout (fuel : nat) (node : Node) : M unit :=
  let* path := select fuel node in
  let* leaf := py_last path in
  expand leaf >>
  let* reward := simulate fuel leaf in
  backpropagate path reward.

(** ** Vocabulary of the statements *)

(** Two worlds that no read of the engine can tell apart: the same
    [children] dictionary, the same set objects, the same weight, and the
    same value at every key of [self.N] and [self.Q] (an absent key reads
    as the default).  The random source is left out. *)
Record weq (w1 w2 : World) : Prop := mk_weq {
  weq_children : children (self w1) = children (self w2);
  weq_weight : exploration_weight (self w1) = exploration_weight (self w2);
  weq_heap : heap w1 = heap w2;
  weq_N : ∀ n, getN w1 n = getN w2 n;
  weq_Q : ∀ n, getQ w1 n = getQ w2 n
}.

Definition req {A} (r1 r2 : result A) : Prop :=
  match r1, r2 with
  | Ok a1 w1, Ok a2 w2 => a1 = a2 ∧ weq w1 w2
  | Raise e1 w1, Raise e2 w2 => e1 = e2 ∧ weq w1 w2
  | OutOfFuel, OutOfFuel => True
  | _, _ => False
  end.

(** A computation that leaves the world as it finds it, up to [weq], and
    one whose outcome depends on the world only up to [weq]. *)
Definition neutral {A} (m : M A) : Prop :=
  ∀ w w', final (m w) = Some w' → weq w w'.
Definition proper {A} (m : M A) : Prop :=
  ∀ w1 w2, weq w1 w2 → req (m w1) (m w2).

(** Mean reward of a node, negative infinity when it was never visited. *)
Definition mean_reward (w : World) (n : Node) : ext :=
  if Nat.eqb (getN w n) 0 then NegInf
  else Fin (getQ w n / of_nat (getN w n)).

(** [node] is a key of [self.children], bound to the set object at [l],
    whose members are [cs]. *)
Definition stored (w : World) (node : Node) (l : loc) (cs : gset Node) : Prop :=
  children (self w) !! node = Some l ∧ heap w !! l = Some cs.

(** A computation under which a recorded set stays as it is: the same
    key, the same set object, the same members. *)
Definition keeps_stored {A} (m : M A) : Prop :=
  ∀ w w' node l cs,
    final (m w) = Some w' → stored w node l cs → stored w' node l cs.

(** The upper confidence bound [uct_select node] computes for [n]. *)
Definition uct_value (w : World) (node n : Node) : ext :=
  Fin (getQ w n / of_nat (getN w n)
       + exploration_weight (self w)
         * math_sqrt (math_log (of_nat (getN w node)) / of_nat (getN w n))).

(** What [uct_select node] relies on. *)
Definition uct_pre (w : World) (node : Node) : Prop :=
  ∃ cs, children_of w node = Some cs
    ∧ (∀ c, c ∈ cs → c ∈ dom (children (self w)) ∧ (1 ≤ getN w c)%nat)
    ∧ (1 ≤ getN w node)%nat.

Definition flip (r : Qc) : Qc := 1 - r.

(** The world after a call that comes back (the world before it, for a
    call that does not). *)
Definition after {A} (m : M A) (w : World) : World :=
  default w (final (m w)).

(** How often [s] occurs on a path, and what a walk over [nodes] that
    starts with reward [r] adds to the cumulative reward of [s]. *)
Fixpoint occurrences (s : Node) (nodes : list Node) : nat :=
  match nodes with
  | [] => 0
  | x :: nodes' => (if decide (x = s) then 1 else 0) + occurrences s nodes'
  end.
Fixpoint gain (s : Node) (nodes : list Node) (r : Qc) : Qc :=
  match nodes with
  | [] => 0
  | x :: nodes' => (if decide (x = s) then r else 0) + gain s nodes' (flip r)
  end.

(** The random walk of [simulate]: where it stands after [k] draws. *)
Fixpoint playout (k : nat) (node : Node) (g : rand) : Node * rand :=
  match k with
  | O => (node, g)
  | S k' => let (node', g') := find_random_child node g in playout k' node' g'
  end.

(** The walk from [leaf] meets its first terminal state after exactly [k]
    draws. *)
Definition playout_ends (k : nat) (leaf : Node) (g : rand) : bool :=
  forallb (λ i, negb (is_terminal ((playout i leaf g).1))) (seq 0 k)
  && is_terminal ((playout k leaf g).1).

(** The caller's training loop: [for _ in range(k): tree.rollout(root)]. *)
Fixpoint rollouts (fuel k : nat) (root : Node) : M unit :=
  match k with
  | O => ret tt
  | S k' => rollout fuel root >> rollouts fuel k' root
  end.

(** A freshly constructed engine, among whatever set objects and random
    state the program has at that moment. *)
Definition init_world (weight : Qc) (h : gmap loc (gset Node)) (g : rand)
    : World :=
  mkWorld (__init__ weight) h g.

(** The worlds the engine can be in: after construction, after a rollout
    that returned, after a call of [choose] that returned or raised. *)
Inductive reachable : World → Prop :=
  | reachable_init weight h g : reachable (init_world weight h g)
  | reachable_rollout w fuel node w' :
      reachable w → rollout fuel node w = Ok tt w' → reachable w'
  | reachable_choose w node w' :
      reachable w → final (choose node w) = Some w' → reachable w'.

(** [select_at w0 root node path w]: the loop of [select], entered at
    [root] in world [w0], starts a turn with [node], [path] and world [w]. *)
Inductive select_at (w0 : World) (root : Node)
    : Node → list Node → World → Prop :=
  | select_at_start : select_at w0 root root [] w0
  | select_at_next node path w path' w1 node' w2 :
      select_at w0 root node path w →
      select_turn node path w = Ok (inr path') w1 →
      uct_select node w1 = Ok node' w2 →
      select_at w0 root node' path' w2.

(** What every reachable world satisfies: a recorded set is the set
    [find_children] gave, and every expanded node has been visited. *)
Definition Inv (w : World) : Prop :=
  (∀ n l, children (self w) !! n = Some l → heap w !! l = Some (find_children n))
  ∧ (∀ n, n ∈ dom (children (self w)) → (1 ≤ getN w n)%nat).

(** Every state of the path has the next one among its recorded
    children. *)
Fixpoint chain (w : World) (path : list Node) : Prop :=
  match path with
  | x :: rest =>
      match rest with
      | y :: _ => (∃ cs, children_of w x = Some cs ∧ y ∈ cs) ∧ chain w rest
      | [] => True
      end
  | [] => True
  end.

(** Nothing is forgotten from [w] to [w']: the keys of [self.children]
    stay and no visit count goes down. *)
Definition grows (w w' : World) : Prop :=
  dom (children (self w)) ⊆ dom (children (self w'))
  ∧ ∀ s, (getN w s ≤ getN w' s)%nat.

(** A computation that forgets nothing, whatever its outcome. *)
Definition growing {A} (m : M A) : Prop :=
  ∀ w w', final (m w) = Some w' → grows w w'.

(** The random walk from [node] meets no terminal state within [k]
    states. *)
Definition never_terminal (k : nat) (node : Node) (g : rand) : bool :=
  forallb (λ i, negb (is_terminal ((playout i node g).1))) (seq 0 k).

(** The item [max] settles on: the first, in the order of [it], whose key
    no other key exceeds. *)
Definition first_max (f : Node → ext) (it : list Node) (c : Node) : Prop :=
  ∃ pre post, it = pre ++ c :: post
    ∧ (∀ y, y ∈ pre → ext_ltb (f y) (f c) = true)
    ∧ (∀ y, y ∈ post → ext_le (f y) (f c)).

End Engine.

Arguments MCTS Node {_ _}.
Arguments World Node rand {_ _}.
Arguments result Node rand {_ _} A.
Arguments M Node rand {_ _} A.
Arguments Ok {Node rand _ _ A} a w.
Arguments Raise {Node rand _ _ A} e w.
Arguments OutOfFuel {Node rand _ _ A}.
Arguments mkMCTS {Node _ _} _ _ _ _.
Arguments mkWorld {Node rand _ _} _ _ _.

(** ** A small game, for running the engine

    Positions are numbers: 0 has the moves 1 and 2, 1 has the moves 3 and
    4, and 2, 3 and 4 are final, worth 1, 0 and a draw.  The random source
    is a counter whose parity picks the move. *)
Module Toy.

Definition half : Qc := Q2Qc (1 # 2).

#[global] Instance game : NodeABC nat nat := {|
  find_children n :=
    match n with
    | 0%nat => {[1%nat; 2%nat]}
    | 1%nat => {[3%nat; 4%nat]}
    | _ => ∅
    end;
  find_random_child n g :=
    (match n with
     | 0%nat => if Nat.even g then 1%nat else 2%nat
     | 1%nat => if Nat.even g then 3%nat else 4%nat
     | _ => n
     end, S g);
  is_terminal n := Nat.leb 2 n;
  reward n := match n with 2%nat => 1 | 3%nat => 0 | _ => half end
|}.

(** Stand-ins for the two library functions; only the sign of the
    logarithm matters to the engine. *)
#[global] Program Instance math : Math :=
  {| math_log x := x - 1; math_sqrt x := x |}.
Next Obligation. intros x Hx. by apply Qcle_minus_iff in Hx. Qed.

#[global] Program Instance order : SetOrder nat := {| set_iter := elements |}.
Next Obligation. intros. apply elem_of_elements. Qed.

Definition w0 : World nat nat := init_world 1 ∅ 0%nat.

(** The world after [k] rollouts from position 0. *)
Definition trained (k : nat) : World nat nat :=
  match rollouts 8 k 0%nat w0 with
  | Ok _ w => w
  | _ => w0
  end.

(** How many moves a position is from the end of the game, at most. *)
Definition rank (n : nat) : nat :=
  match n with 0%nat => 2%nat | 1%nat => 1%nat | _ => 0%nat end.

End Toy.

(** A game that breaks the contract of [is_terminal]: position 0 has no
    successor to enumerate, yet is not reported terminal, and its random
    move leads to the final position 1. *)
Module Stalemate.

Definition game : NodeABC nat nat := {|
  find_children _ := ∅;
  find_random_child _ g := (1%nat, g);
  is_terminal n := Nat.eqb n 1;
  reward _ := 1
|}.

Definition w0 : World nat nat := init_world 1 ∅ 0%nat.

(** The world after one rollout from position 0. *)
Definition w1 : World nat nat :=
  match rollout (game := game) 2 0%nat w0 with
  | Ok _ w => w
  | _ => w0
  end.

End Stalemate.

(** A game with cycles: position 0 may pass, which leaves it where it is,
    and its random move ends the game at 1; position 2 has nowhere to go
    but 2. *)
Module Cycle.

Definition game : NodeABC nat nat := {|
  find_children n := {[n]};
  find_random_child n g := (match n with 0%nat => 1%nat | _ => n end, g);
  is_terminal n := Nat.eqb n 1;
  reward _ := 1
|}.

Definition w0 : World nat nat := init_world 1 ∅ 0%nat.

(** The world after one rollout from position 0. *)
Definition w1 : World nat nat :=
  match rollout (game := game) 2 0%nat w0 with
  | Ok _ w => w
  | _ => w0
  end.

End Cycle.

(** * Properties *)

(** ** The order on keys *)

Lemma Qc_ltb_lt (a b : Qc) : Qc_ltb a b = true ↔ a < b.
Proof.
  unfold Qc_ltb, Qclt. rewrite Qlt_alt.
  by destruct (this a ?= this b)%Q.
Qed.

Lemma Qc_ltb_ge (a b : Qc) : Qc_ltb a b = false ↔ b <= a.
Proof.
  rewrite <- not_true_iff_false, Qc_ltb_lt. split.
  - apply Qcnot_lt_le.
  - apply Qcle_not_lt.
Qed.

Lemma ext_le_refl (a : ext) : ext_le a a.
Proof. destruct a; [done|]. apply Qc_ltb_ge, Qcle_refl. Qed.

Lemma ext_le_trans (a b c : ext) : ext_le a b → ext_le b c → ext_le a c.
Proof.
  unfold ext_le. destruct a, b, c; simpl; try done.
  rewrite !Qc_ltb_ge. apply Qcle_trans.
Qed.

Lemma ext_ltb_le (a b : ext) : ext_ltb a b = true → ext_le a b.
Proof.
  unfold ext_le. destruct a, b; simpl; try done.
  rewrite Qc_ltb_lt, Qc_ltb_ge. apply Qclt_le_weak.
Qed.

Lemma ext_le_Fin (a : ext) (q : Qc) : ext_le (Fin q) a → a ≠ NegInf.
Proof. by destruct a. Qed.

Lemma of_nat_pos (c : nat) : (1 ≤ c)%nat → 0 < of_nat c.
Proof.
  intros Hc. unfold of_nat, Qclt, Qlt. simpl. lia.
Qed.

Lemma of_nat_ge_1 (c : nat) : (1 ≤ c)%nat → 1 <= of_nat c.
Proof.
  intros Hc. unfold of_nat, Qcle, Qle. simpl. lia.
Qed.

Section Theory.
Context {Node rand : Type} `{Countable Node}.
Context {game : NodeABC Node rand} {math : Math} {order : SetOrder Node}.

Abbreviation World := (World Node rand).
Abbreviation M := (M Node rand).
Abbreviation result := (result Node rand).

Implicit Types (w : World) (node n : Node) (path : list Node).

(** ** Worlds up to reads *)

Lemma weq_refl w : weq w w.
Proof. by split. Qed.

Lemma weq_sym w1 w2 : weq w1 w2 → weq w2 w1.
Proof. intros []. by split. Qed.

Lemma weq_trans w1 w2 w3 : weq w1 w2 → weq w2 w3 → weq w1 w3.
Proof. intros [] []. split; intros; etrans; eauto. Qed.

Lemma weq_set_rng w g : weq w (set_rng g w).
Proof. by split. Qed.

Lemma weq_N_default w n :
  N_ (self w) !! n = None → weq w (set_N (<[n := 0%nat]> (N_ (self w))) w).
Proof.
  intros Hn. split; try done. intros n'. unfold getN. simpl.
  destruct (decide (n = n')) as [<-|?].
  - by rewrite lookup_insert_eq, Hn.
  - by rewrite lookup_insert_ne.
Qed.

Lemma weq_Q_default w n :
  Q_ (self w) !! n = None → weq w (set_Q (<[n := 0]> (Q_ (self w))) w).
Proof.
  intros Hn. split; try done. intros n'. unfold getQ. simpl.
  destruct (decide (n = n')) as [<-|?].
  - by rewrite lookup_insert_eq, Hn.
  - by rewrite lookup_insert_ne.
Qed.

Lemma req_refl {A} (r : result A) : req r r.
Proof. destruct r; simpl; auto using weq_refl. Qed.

(** Reading a [defaultdict] returns the value every read returns, and
    leaves a world that reads the same. *)
Lemma N_getitem_read n w :
  ∃ w', N_getitem n w = Ok (getN w n) w' ∧ weq w w'.
Proof.
  unfold N_getitem, getN. destruct (N_ (self w) !! n) eqn:E; simpl.
  - eauto using weq_refl.
  - eauto using weq_N_default.
Qed.

Lemma Q_getitem_read n w :
  ∃ w', Q_getitem n w = Ok (getQ w n) w' ∧ weq w w'.
Proof.
  unfold Q_getitem, getQ. destruct (Q_ (self w) !! n) eqn:E; simpl.
  - eauto using weq_refl.
  - eauto using weq_Q_default.
Qed.

(** ** Computations that do not disturb the world, compositionally *)

Lemma neutral_ret {A} (a : A) : neutral (ret a : M A).
Proof. intros w w' [= <-]. apply weq_refl. Qed.

Lemma neutral_raise {A} e : neutral (raise e : M A).
Proof. intros w w' [= <-]. apply weq_refl. Qed.

Lemma neutral_out_of_fuel {A} : neutral (out_of_fuel : M A).
Proof. by intros w w'. Qed.

Lemma neutral_bind {A B} (m : M A) (f : A → M B) :
  neutral m → (∀ a, neutral (f a)) → neutral (bind m f).
Proof.
  intros Hm Hf w w'. unfold bind. specialize (Hm w).
  destruct (m w) as [a w1| |]; simpl; [|auto|done].
  intros Hw'. eapply weq_trans; [by apply Hm|]. by eapply Hf.
Qed.

Lemma neutral_if {A} (b : bool) (m1 m2 : M A) :
  neutral m1 → neutral m2 → neutral (if b then m1 else m2).
Proof. by destruct b. Qed.

Lemma neutral_N_getitem n : neutral (N_getitem n : M _).
Proof.
  intros w w'. destruct (N_getitem_read n w) as (w1 & -> & ?). by intros [= <-].
Qed.

Lemma neutral_Q_getitem n : neutral (Q_getitem n : M _).
Proof.
  intros w w'. destruct (Q_getitem_read n w) as (w1 & -> & ?). by intros [= <-].
Qed.

Lemma neutral_children_contains n : neutral (children_contains n : M _).
Proof. intros w w' [= <-]. apply weq_refl. Qed.

Lemma neutral_children_getitem n : neutral (children_getitem n : M _).
Proof.
  intros w w'. unfold children_getitem.
  destruct (children (self w) !! n); intros [= <-]; apply weq_refl.
Qed.

Lemma neutral_children_keys : neutral (children_keys : M _).
Proof. intros w w' [= <-]. apply weq_refl. Qed.

Lemma neutral_set_read l : neutral (set_read l : M _).
Proof.
  intros w w'. unfold set_read.
  destruct (heap w !! l); intros [= <-]; apply weq_refl.
Qed.

Lemma neutral_get_exploration_weight :
  neutral (get_exploration_weight : M _).
Proof. intros w w' [= <-]. apply weq_refl. Qed.

Lemma neutral_random_child node : neutral (random_child node : M _).
Proof.
  intros w w'. unfold random_child.
  destruct (find_random_child node (rng w)). intros [= <-]. apply weq_set_rng.
Qed.

Lemma neutral_py_div a c : neutral (py_div a c : M _).
Proof. apply neutral_if; [apply neutral_raise | apply neutral_ret]. Qed.

Lemma neutral_py_log c : neutral (py_log c : M _).
Proof. apply neutral_if; [apply neutral_raise | apply neutral_ret]. Qed.

Lemma neutral_py_sqrt x : neutral (py_sqrt x : M _).
Proof. apply neutral_if; [apply neutral_raise | apply neutral_ret]. Qed.

Lemma neutral_max_loop key maxitem maxval it :
  (∀ n, neutral (key n)) → neutral (max_loop key maxitem maxval it : M _).
Proof.
  intros Hkey. revert maxitem maxval.
  induction it as [|item it IH]; intros maxitem maxval; simpl.
  - apply neutral_ret.
  - apply neutral_bind; [done|]. intros val. apply neutral_if; apply IH.
Qed.

Lemma neutral_py_max key it :
  (∀ n, neutral (key n)) → neutral (py_max key it : M _).
Proof.
  intros Hkey. destruct it as [|item it]; simpl.
  - apply neutral_raise.
  - apply neutral_bind; [done|]. intros val. by apply neutral_max_loop.
Qed.

Ltac neutrality :=
  repeat first
    [ apply neutral_ret | apply neutral_raise | apply neutral_out_of_fuel
    | apply neutral_N_getitem | apply neutral_Q_getitem
    | apply neutral_children_contains | apply neutral_children_getitem
    | apply neutral_children_keys | apply neutral_set_read
    | apply neutral_get_exploration_weight | apply neutral_random_child
    | apply neutral_py_div | apply neutral_py_log | apply neutral_py_sqrt
    | apply neutral_py_max; intros ?
    | apply neutral_if
    | apply neutral_bind; [|intros ?] ].

Lemma neutral_score n : neutral (score n : M _).
Proof. unfold score. neutrality. Qed.

Lemma neutral_uct vertex n : neutral (uct vertex n : M _).
Proof. unfold uct. neutrality. Qed.

Lemma neutral_uct_select node : neutral (uct_select node : M _).
Proof. unfold uct_select. neutrality. Qed.

Lemma neutral_choose node : neutral (choose node : M _).
Proof. unfold choose. neutrality. Qed.

(** ** Computations that cannot tell equivalent worlds apart *)

Lemma proper_ret {A} (a : A) : proper (ret a : M A).
Proof. by intros w1 w2 Hw. Qed.

Lemma proper_raise {A} e : proper (raise e : M A).
Proof. by intros w1 w2 Hw. Qed.

Lemma proper_out_of_fuel {A} : proper (out_of_fuel : M A).
Proof. by intros w1 w2 Hw. Qed.

Lemma proper_bind {A B} (m : M A) (f : A → M B) :
  proper m → (∀ a, proper (f a)) → proper (bind m f).
Proof.
  intros Hm Hf w1 w2 Hw. unfold bind. specialize (Hm w1 w2 Hw).
  destruct (m w1), (m w2); simpl in *; try done.
  destruct Hm as [<- Hw']. by apply Hf.
Qed.

Lemma proper_if {A} (b : bool) (m1 m2 : M A) :
  proper m1 → proper m2 → proper (if b then m1 else m2).
Proof. by destruct b. Qed.

Lemma proper_N_getitem n : proper (N_getitem n : M _).
Proof.
  intros w1 w2 Hw.
  destruct (N_getitem_read n w1) as (w1' & -> & ?).
  destruct (N_getitem_read n w2) as (w2' & -> & ?).
  split; [by apply weq_N|]. eauto using weq_trans, weq_sym.
Qed.

Lemma proper_Q_getitem n : proper (Q_getitem n : M _).
Proof.
  intros w1 w2 Hw.
  destruct (Q_getitem_read n w1) as (w1' & -> & ?).
  destruct (Q_getitem_read n w2) as (w2' & -> & ?).
  split; [by apply weq_Q|]. eauto using weq_trans, weq_sym.
Qed.

Lemma proper_children_contains n : proper (children_contains n : M _).
Proof. intros w1 w2 Hw. split; [|done]. by rewrite (weq_children _ _ Hw). Qed.

Lemma proper_children_getitem n : proper (children_getitem n : M _).
Proof.
  intros w1 w2 Hw. unfold children_getitem. rewrite (weq_children _ _ Hw).
  by destruct (children (self w2) !! n).
Qed.

Lemma proper_children_keys : proper (children_keys : M _).
Proof. intros w1 w2 Hw. split; [|done]. by rewrite (weq_children _ _ Hw). Qed.

Lemma proper_set_read l : proper (set_read l : M _).
Proof.
  intros w1 w2 Hw. unfold set_read. rewrite (weq_heap _ _ Hw).
  by destruct (heap w2 !! l).
Qed.

Lemma proper_set_new s : proper (set_new s : M _).
Proof.
  intros w1 w2 Hw. unfold set_new. rewrite (weq_heap _ _ Hw).
  split; [done|]. destruct Hw. by split.
Qed.

Lemma proper_set_write l s : proper (set_write l s : M _).
Proof.
  intros w1 w2 Hw. unfold set_write. rewrite (weq_heap _ _ Hw).
  split; [done|]. destruct Hw. by split.
Qed.

Lemma proper_set_del l : proper (set_del l : M _).
Proof.
  intros w1 w2 Hw. unfold set_del. rewrite (weq_heap _ _ Hw).
  split; [done|]. destruct Hw. by split.
Qed.

Lemma proper_get_exploration_weight : proper (get_exploration_weight : M _).
Proof. intros w1 w2 Hw. split; [|done]. by apply weq_weight. Qed.

Lemma proper_py_div a c : proper (py_div a c : M _).
Proof. apply proper_if; [apply proper_raise | apply proper_ret]. Qed.

Lemma proper_py_log c : proper (py_log c : M _).
Proof. apply proper_if; [apply proper_raise | apply proper_ret]. Qed.

Lemma proper_py_sqrt x : proper (py_sqrt x : M _).
Proof. apply proper_if; [apply proper_raise | apply proper_ret]. Qed.

Lemma proper_max_loop key maxitem maxval it :
  (∀ n, proper (key n)) → proper (max_loop key maxitem maxval it : M _).
Proof.
  intros Hkey. revert maxitem maxval.
  induction it as [|item it IH]; intros maxitem maxval; simpl.
  - apply proper_ret.
  - apply proper_bind; [done|]. intros val. apply proper_if; apply IH.
Qed.

Lemma proper_py_max key it :
  (∀ n, proper (key n)) → proper (py_max key it : M _).
Proof.
  intros Hkey. destruct it as [|item it]; simpl.
  - apply proper_raise.
  - apply proper_bind; [done|]. intros val. by apply proper_max_loop.
Qed.

Lemma proper_set_pop l : proper (set_pop l : M _).
Proof.
  unfold set_pop. apply proper_bind; [apply proper_set_read|]. intros s.
  destruct (set_iter s); [apply proper_raise|].
  apply proper_bind; [apply proper_set_write|]. intros _. apply proper_ret.
Qed.

Ltac properness :=
  repeat first
    [ apply proper_set_pop | apply proper_ret | apply proper_raise | apply proper_out_of_fuel
    | apply proper_N_getitem | apply proper_Q_getitem
    | apply proper_children_contains | apply proper_children_getitem
    | apply proper_children_keys | apply proper_set_read
    | apply proper_set_new | apply proper_set_write | apply proper_set_del
    | apply proper_get_exploration_weight
    | apply proper_py_div | apply proper_py_log | apply proper_py_sqrt
    | apply proper_py_max; intros ?
    | apply proper_if
    | apply proper_bind; [|intros ?] ].

Lemma proper_uct vertex n : proper (uct vertex n : M _).
Proof. unfold uct. properness. Qed.

Lemma proper_uct_select node : proper (uct_select node : M _).
Proof. unfold uct_select. properness. Qed.

Lemma proper_select_turn node path : proper (select_turn node path : M _).
Proof. unfold select_turn. properness. Qed.

Lemma proper_select_loop fuel node path :
  proper (select_loop fuel node path : M _).
Proof.
  revert node path. induction fuel as [|fuel IH]; intros node path; simpl.
  - apply proper_out_of_fuel.
  - apply proper_bind; [apply proper_select_turn|]. intros [p|p].
    + apply proper_ret.
    + apply proper_bind; [apply proper_uct_select|]. intros n. apply IH.
Qed.

(** ** [max] with a key that only reads *)

Section Max.
Variables (key : Node → M ext) (f : Node → ext) (P : World → Prop).

Lemma max_loop_spec it :
  (∀ n w, n ∈ it → P w → ∃ w', key n w = Ok (f n) w' ∧ P w') →
  ∀ maxitem w, P w →
  ∃ c w', max_loop key maxitem (f maxitem) it w = Ok c w' ∧ P w'
    ∧ c ∈ maxitem :: it ∧ ∀ y, y ∈ maxitem :: it → ext_le (f y) (f c).
Proof.
  induction it as [|item it IH]; intros Hkey maxitem w Hw; simpl.
  - exists maxitem, w. split_and!; [done|done|set_solver|].
    intros y ->%list_elem_of_singleton. apply ext_le_refl.
  - destruct (Hkey item w) as (w1 & Hitem & Hw1); [set_solver|done|].
    unfold bind. rewrite Hitem.
    assert (∀ n w, n ∈ it → P w → ∃ w', key n w = Ok (f n) w' ∧ P w')
      as Hkey' by (intros; apply Hkey; [set_solver|done]).
    destruct (ext_ltb (f maxitem) (f item)) eqn:Hlt.
    + destruct (IH Hkey' item w1 Hw1) as (c & w' & Hloop & Hw' & Hcin & Hmax).
      rewrite Hloop. exists c, w'.
      split_and!; [done|done|by apply list_elem_of_further|].
      intros y [->|Hy]%elem_of_cons; [|by apply Hmax].
      eapply ext_le_trans; [by apply ext_ltb_le|].
      apply Hmax, list_elem_of_here.
    + destruct (IH Hkey' maxitem w1 Hw1) as (c & w' & Hloop & Hw' & Hcin & Hmax).
      rewrite Hloop. exists c, w'.
      split_and!; [done|done|revert Hcin; rewrite !elem_of_cons; tauto|].
      intros y [->|[->|Hy]%elem_of_cons]%elem_of_cons.
      * apply Hmax, list_elem_of_here.
      * eapply ext_le_trans; [exact Hlt|]. apply Hmax, list_elem_of_here.
      * by apply Hmax, list_elem_of_further.
Qed.

Lemma py_max_spec it w :
  (∀ n w, n ∈ it → P w → ∃ w', key n w = Ok (f n) w' ∧ P w') →
  it ≠ [] → P w →
  ∃ c w', py_max key it w = Ok c w' ∧ P w'
    ∧ c ∈ it ∧ ∀ y, y ∈ it → ext_le (f y) (f c).
Proof.
  intros Hkey Hit Hw. destruct it as [|item it]; [done|]. simpl.
  destruct (Hkey item w) as (w1 & Hitem & Hw1); [set_solver|done|].
  unfold bind. rewrite Hitem. apply max_loop_spec; [|done].
  intros; apply Hkey; [set_solver|done].
Qed.

End Max.

(** ** [choose] *)

Lemma score_spec w0 n w :
  weq w0 w → ∃ w', score n w = Ok (mean_reward w0 n) w' ∧ weq w0 w'.
Proof.
  intros Hw. unfold score, mean_reward, bind.
  destruct (N_getitem_read n w) as (w1 & -> & Hw1).
  rewrite <- (weq_N _ _ Hw).
  destruct (getN w0 n =? 0)%nat eqn:Hc.
  { exists w1. eauto using weq_trans. }
  destruct (Q_getitem_read n w1) as (w2 & -> & Hw2).
  destruct (N_getitem_read n w2) as (w3 & -> & Hw3).
  assert (weq w0 w3) as Hw03 by eauto using weq_trans.
  assert (weq w0 w2) as Hw02 by eauto using weq_trans.
  assert (weq w0 w1) as Hw01 by eauto using weq_trans.
  rewrite <- (weq_N _ _ Hw02), <- (weq_Q _ _ Hw01).
  unfold py_div. rewrite Hc. by exists w3.
Qed.

Lemma children_contains_eq n w :
  children_contains n w
  = Ok (bool_decide (is_Some (children (self w) !! n))) w.
Proof.
  unfold children_contains. f_equal. apply bool_decide_ext, elem_of_dom.
Qed.

Lemma set_iter_nil (s : gset Node) : set_iter s = [] ↔ s = ∅.
Proof.
  split.
  - intros Hs. apply set_eq. intros x. rewrite <- set_iter_elem, Hs. set_solver.
  - intros ->. destruct (set_iter ∅) as [|x l] eqn:E; [done|].
    assert (x ∈ (∅ : gset Node)) by (apply set_iter_elem; rewrite E; set_solver).
    set_solver.
Qed.

(** C6.  [choose] on a terminal state raises [RuntimeError], whatever the
    engine has accumulated, and changes nothing. *)
Theorem choose_terminal_raises w node :
  is_terminal node = true → choose node w = Raise RuntimeError w.
Proof. intros Hterm. unfold choose. by rewrite Hterm. Qed.

(** C7.  On a non-terminal state that is not a key of [self.children],
    [choose] returns what [find_random_child] draws. *)
Theorem choose_cold_start w node :
  is_terminal node = false →
  node ∉ dom (children (self w)) →
  choose node w
  = Ok (find_random_child node (rng w)).1
       (set_rng (find_random_child node (rng w)).2 w).
Proof.
  intros Hterm Hkey. unfold choose, bind. rewrite Hterm.
  unfold children_contains. rewrite bool_decide_eq_false_2 by done. simpl.
  unfold random_child. by destruct (find_random_child node (rng w)).
Qed.

(** In any world: on a non-terminal state recorded with a non-empty set
    of children, [choose] returns a member of that set whose mean reward is
    maximal, an unvisited child counting as negative infinity. *)
Lemma choose_best w root l cs :
  is_terminal root = false →
  stored w root l cs →
  cs ≠ ∅ →
  ∃ c w', choose root w = Ok c w'
    ∧ c ∈ cs
    ∧ (∀ c', c' ∈ cs → ext_le (mean_reward w c') (mean_reward w c))
    ∧ (∀ c', c' ∈ cs → (1 ≤ getN w c')%nat →
         (1 ≤ getN w c)%nat
         ∧ getQ w c' / of_nat (getN w c') <= getQ w c / of_nat (getN w c)).
Proof.
  intros Hterm [Hl Hcs] Hne. unfold choose, bind. rewrite Hterm.
  rewrite children_contains_eq, bool_decide_eq_true_2 by (by rewrite Hl).
  simpl. unfold children_getitem, set_read. rewrite Hl, Hcs.
  destruct (py_max_spec score (mean_reward w) (weq w) (set_iter cs) w)
    as (c & w' & Hmax & _ & Hin & Hbest).
  { intros n w1 _ Hw1. by apply score_spec. }
  { by rewrite set_iter_nil. }
  { apply weq_refl. }
  exists c, w'. split; [done|]. split; [by apply set_iter_elem|].
  assert (∀ c', c' ∈ cs → ext_le (mean_reward w c') (mean_reward w c))
    as Hbest' by (intros c' Hc'; by apply Hbest, set_iter_elem).
  split; [done|]. intros c' Hc' Hvisited.
  specialize (Hbest' c' Hc'). unfold mean_reward, ext_le in Hbest'.
  destruct (getN w c' =? 0)%nat eqn:E'; [apply Nat.eqb_eq in E'; lia|].
  destruct (getN w c =? 0)%nat eqn:E; [done|].
  apply Nat.eqb_neq in E. split; [lia|]. by apply Qc_ltb_ge.
Qed.

Lemma py_max_score_returns it w : final (py_max score it w) ≠ None.
Proof.
  destruct (decide (it = [])) as [->|Hit]; [done|].
  destruct (py_max_spec score (mean_reward w) (weq w) it w)
    as (c & w' & -> & _); [|done|apply weq_refl|done].
  intros n w1 _ Hw1. by apply score_spec.
Qed.

Lemma choose_returns w node : final (choose node w) ≠ None.
Proof.
  unfold choose, bind. destruct (is_terminal node); [done|].
  rewrite children_contains_eq. case_bool_decide as Hkey; simpl.
  - destruct Hkey as [l Hl]. unfold children_getitem, set_read. rewrite Hl.
    destruct (heap w !! l); [|done]. apply py_max_score_returns.
  - unfold random_child. by destruct (find_random_child node (rng w)).
Qed.

(** C9.  Whatever its argument, a call of [choose] comes back, with a
    state or with an exception, and leaves every state's cumulative reward,
    visit count and recorded children as they read before. *)
Theorem choose_is_query w node :
  ∃ w', final (choose node w) = Some w'
    ∧ ∀ s, getQ w' s = getQ w s
         ∧ getN w' s = getN w s
         ∧ children_of w' s = children_of w s.
Proof.
  destruct (final (choose node w)) as [w'|] eqn:Hfinal;
    [|by apply choose_returns in Hfinal].
  exists w'. split; [done|]. intros s.
  apply neutral_choose in Hfinal. destruct Hfinal as [Hch _ Hheap HN HQ].
  unfold children_of. by rewrite Hch, Hheap, HN, HQ.
Qed.

(** ** [select] and [uct_select] *)

Lemma set_heap_id w : set_heap (heap w) w = w.
Proof. by destruct w. Qed.

(** One turn of the loop, as a function of the world: it reads
    [self.children] and the recorded set, and the temporary set it builds is
    gone when it is done. *)
Lemma select_turn_eq node path w :
  select_turn node path w =
  match children (self w) !! node with
  | None => Ok (inl (path ++ [node])) w
  | Some l =>
      match heap w !! l with
      | None => Raise SystemError w
      | Some s =>
          if bool_decide (s = ∅) then Ok (inl (path ++ [node])) w
          else
            match set_iter (s ∖ dom (children (self w))) with
            | [] => Ok (inr (path ++ [node])) w
            | n :: _ => Ok (inl ((path ++ [node]) ++ [n])) w
            end
      end
  end.
Proof.
  unfold select_turn, bind, children_contains, children_getitem, set_read,
    children_keys, set_new. simpl.
  destruct (children (self w) !! node) as [l|] eqn:Hl.
  2:{ by rewrite bool_decide_eq_false_2 by (by apply not_elem_of_dom). }
  rewrite bool_decide_eq_true_2 by (apply elem_of_dom; eauto). simpl.
  rewrite Hl.
  destruct (heap w !! l) as [s|] eqn:Hs; [|done].
  case_bool_decide as Hempty; [done|]. rewrite Hl, Hs.
  set (u := s ∖ dom (children (self w))).
  set (l' := fresh (dom (heap w))).
  assert (heap w !! l' = None) as Hfresh by apply not_elem_of_dom, is_fresh.
  rewrite lookup_insert_eq.
  destruct (set_iter u) as [|n rest] eqn:Hiter.
  - apply set_iter_nil in Hiter. rewrite bool_decide_eq_true_2 by done. simpl.
    unfold ret. rewrite delete_insert_eq, delete_id by done.
    f_equal. by destruct w.
  - rewrite bool_decide_eq_false_2
      by (intros Hu%set_iter_nil; congruence). simpl.
    unfold set_pop, bind, set_read. simpl. rewrite lookup_insert_eq, Hiter.
    unfold set_write, ret. simpl.
    rewrite insert_insert_eq, delete_insert_eq, delete_id by done.
    f_equal. by destruct w.
Qed.

(** The three ways a turn can go: the loop returns the path extended by
    [node] and possibly by an unexplored child; it goes on to [uct_select];
    or the recorded reference is dangling. *)
Lemma select_turn_cases node path w :
  (∃ d, select_turn node path w = Ok (inl (path ++ node :: d)) w
     ∧ (d = [] ∧ (children_of w node = None ∨ children_of w node = Some ∅)
        ∨ ∃ n, d = [n] ∧ (n ∉ dom (children (self w)))
               ∧ node ∈ dom (children (self w))))
  ∨ (select_turn node path w = Ok (inr (path ++ [node])) w
     ∧ ∃ l cs, stored w node l cs ∧ cs ≠ ∅
               ∧ ∀ c, c ∈ cs → c ∈ dom (children (self w)))
  ∨ (select_turn node path w = Raise SystemError w
     ∧ node ∈ dom (children (self w)) ∧ children_of w node = None).
Proof.
  rewrite select_turn_eq. unfold children_of, stored.
  destruct (children (self w) !! node) as [l|] eqn:Hl; simpl.
  2:{ left. exists []. eauto. }
  assert (node ∈ dom (children (self w))) by (apply elem_of_dom; eauto).
  destruct (heap w !! l) as [cs|] eqn:Hcs; [|by right; right].
  case_bool_decide as Hempty.
  { left. exists []. subst. eauto. }
  destruct (set_iter (cs ∖ dom (children (self w)))) as [|n rest] eqn:Hiter.
  - right; left. split; [done|]. exists l, cs. split_and!; [done..|].
    apply set_iter_nil in Hiter. intros c Hc.
    destruct (decide (c ∈ dom (children (self w)))) as [|Hout]; [done|].
    assert (c ∈ cs ∖ dom (children (self w))) as Hin
      by (by apply elem_of_difference).
    rewrite Hiter in Hin. by apply not_elem_of_empty in Hin.
  - left. exists [n]. rewrite <- app_assoc. split; [done|]. right.
    exists n. split_and!; [done| |done].
    assert (n ∈ cs ∖ dom (children (self w))) as Hin
      by (apply set_iter_elem; rewrite Hiter; apply list_elem_of_here).
    by apply elem_of_difference in Hin as [_ ?].
Qed.

Lemma select_turn_final node path w :
  final (select_turn node path w) = Some w.
Proof.
  destruct (select_turn_cases node path w)
    as [(d & -> & _)|[[-> _]|[-> _]]]; done.
Qed.

Lemma neutral_select_turn node path : neutral (select_turn node path : M _).
Proof.
  intros w w'. rewrite select_turn_final. intros [= <-]. apply weq_refl.
Qed.

Lemma neutral_select_loop fuel node path :
  neutral (select_loop fuel node path : M _).
Proof.
  revert node path. induction fuel as [|fuel IH]; intros node path; simpl.
  - apply neutral_out_of_fuel.
  - apply neutral_bind; [apply neutral_select_turn|]. intros [p|p].
    + apply neutral_ret.
    + apply neutral_bind; [apply neutral_uct_select|]. intros n. apply IH.
Qed.

(** The path a run is entered with is only ever extended. *)
Lemma select_loop_path fuel node path w :
  select_loop fuel node path w
  = result_map (app path) (select_loop fuel node [] w).
Proof.
  revert node path w. induction fuel as [|fuel IH]; intros node path w; simpl.
  { done. }
  unfold bind. rewrite !select_turn_eq.
  destruct (children (self w) !! node) as [l|]; simpl; [|done].
  destruct (heap w !! l) as [cs|]; simpl; [|done].
  case_bool_decide; simpl; [done|].
  destruct (set_iter _) as [|n rest]; simpl.
  - destruct (uct_select node w) as [n1 w1| |]; simpl; [|done..].
    rewrite (IH n1 (path ++ [node])), (IH n1 [node]).
    destruct (select_loop fuel n1 [] w1); simpl; [|done..].
    by rewrite <- app_assoc.
  - by rewrite <- app_assoc.
Qed.

(** More fuel does not change an answer. *)
Lemma select_loop_mono fuel fuel' node path w p w' :
  (fuel ≤ fuel')%nat →
  select_loop fuel node path w = Ok p w' →
  select_loop fuel' node path w = Ok p w'.
Proof.
  revert fuel' node path w.
  induction fuel as [|fuel IH]; intros fuel' node path w Hle; [done|].
  destruct fuel' as [|fuel']; [lia|]. simpl. unfold bind.
  destruct (select_turn node path w) as [[q|q] w1| |]; [done| |done..].
  destruct (uct_select node w1) as [n1 w2| |]; [|done..].
  apply IH. lia.
Qed.

(** Every expanded state on a returned path is a state from which the
    loop, entered afresh, returns a path that is no longer. *)
Lemma select_loop_revisit fuel node w p w' :
  select_loop fuel node [] w = Ok p w' →
  ∀ x, x ∈ p → x ∈ dom (children (self w)) →
  ∃ fuel' w1 p1 w1',
    (fuel' ≤ fuel)%nat ∧ weq w w1
    ∧ select_loop fuel' x [] w1 = Ok p1 w1'
    ∧ (length p1 ≤ length p)%nat.
Proof.
  revert node w p. induction fuel as [|fuel IH]; intros node w p Hrun; [done|].
  assert (∃ w1 p1 w1', weq w w1
            ∧ select_loop (S fuel) node [] w1 = Ok p1 w1'
            ∧ (length p1 ≤ length p)%nat) as Hhere.
  { exists w, p, w'. split; [apply weq_refl|done]. }
  destruct Hhere as (wh & ph & wh' & Hwh & Hrunh & Hlen).
  simpl in Hrun. unfold bind in Hrun.
  destruct (select_turn_cases node [] w)
    as [(d & Hturn & Hd)|[[Hturn _]|[Hturn _]]];
    rewrite Hturn in Hrun; simpl in Hrun; [| |done].
  - injection Hrun as <- <-. intros x Hx Hdom.
    apply elem_of_cons in Hx as [->|Hx]; [by exists (S fuel), wh, ph, wh'|].
    destruct Hd as [[-> _]|(n & -> & Hn & _)]; [by apply elem_of_nil in Hx|].
    by apply list_elem_of_singleton in Hx as ->.
  - destruct (uct_select node w) as [n1 w1| |] eqn:Huct; [|done..].
    assert (weq w w1) as Hw1 by (apply (neutral_uct_select node); by rewrite Huct).
    rewrite select_loop_path in Hrun.
    destruct (select_loop fuel n1 [] w1) as [p1 w1'| |] eqn:Hrun1; [|done..].
    simpl in Hrun. injection Hrun as <- <-. intros x Hx Hdom.
    apply elem_of_cons in Hx as [->|Hx]; [by exists (S fuel), wh, ph, wh'|].
    rewrite (weq_children _ _ Hw1) in Hdom.
    destruct (IH n1 w1 p1 Hrun1 x Hx Hdom)
      as (fuel' & w2 & p2 & w2' & Hle & Hw2 & Hrun2 & Hlen2).
    exists fuel', w2, p2, w2'. split_and!; [lia|by eapply weq_trans|done|].
    simpl. lia.
Qed.

(** A returned path starts at the state the loop was entered with and
    passes through no state twice. *)
Lemma select_loop_NoDup fuel node w p w' :
  select_loop fuel node [] w = Ok p w' →
  NoDup p ∧ head p = Some node.
Proof.
  revert node w p. induction fuel as [|fuel IH]; intros node w p Hrun; [done|].
  pose proof Hrun as Hrun0.
  simpl in Hrun. unfold bind in Hrun.
  destruct (select_turn_cases node [] w)
    as [(d & Hturn & Hd)|[(Hturn & l & cs & [Hl _] & _)|[Hturn _]]];
    rewrite Hturn in Hrun; simpl in Hrun; [| |done].
  - injection Hrun as <- <-. split; [|done].
    destruct Hd as [[-> _]|(n & -> & Hn & Hnode)]; [apply NoDup_singleton|].
    apply NoDup_cons. split; [|apply NoDup_singleton].
    intros ->%list_elem_of_singleton. done.
  - destruct (uct_select node w) as [n1 w1| |] eqn:Huct; [|done..].
    assert (weq w w1) as Hw1 by (apply (neutral_uct_select node); by rewrite Huct).
    rewrite select_loop_path in Hrun.
    destruct (select_loop fuel n1 [] w1) as [p1 w1'| |] eqn:Hrun1; [|done..].
    simpl in Hrun. injection Hrun as <- <-. split; [|done].
    apply NoDup_cons. split; [|by eapply IH].
    intros Hin.
    assert (node ∈ dom (children (self w1))) as Hdom
      by (rewrite <- (weq_children _ _ Hw1); apply elem_of_dom; eauto).
    destruct (select_loop_revisit _ _ _ _ _ Hrun1 node Hin Hdom)
      as (fuel' & w2 & p2 & w2' & Hle & Hw2 & Hrun2 & Hlen2).
    assert (weq w2 w) as Hw2w by eauto using weq_trans, weq_sym.
    pose proof (proper_select_loop fuel' node [] w2 w Hw2w) as Hreq.
    rewrite Hrun2 in Hreq.
    destruct (select_loop fuel' node [] w) as [p3 w3| |] eqn:Hrun3; [|done..].
    destruct Hreq as [<- _].
    apply (select_loop_mono _ (S fuel)) in Hrun3; [|lia].
    rewrite Hrun0 in Hrun3. injection Hrun3 as Hp _.
    apply (f_equal length) in Hp. simpl in Hp. lia.
Qed.

(** ** [backpropagate] *)

(** One step of the walk: it returns, touches nothing but the two counters
    of [node], adds 1 to the one and [r] to the other. *)
Lemma backpropagate_loop_cons node nodes r w :
  ∃ w1, backpropagate_loop (node :: nodes) r w
        = backpropagate_loop nodes (flip r) w1
    ∧ children (self w1) = children (self w)
    ∧ exploration_weight (self w1) = exploration_weight (self w)
    ∧ heap w1 = heap w ∧ rng w1 = rng w
    ∧ (∀ s, getN w1 s = (getN w s + if decide (node = s) then 1 else 0)%nat)
    ∧ (∀ s, getQ w1 s = getQ w s + if decide (node = s) then r else 0).
Proof.
  simpl. unfold bind, N_getitem, N_setitem, Q_getitem, Q_setitem, getN, getQ.
  destruct (N_ (self w) !! node) as [c|] eqn:HNn;
    destruct (Q_ (self w) !! node) as [q|] eqn:HQn; simpl;
    rewrite ?HQn; simpl;
    (eexists; split; [reflexivity|]; simpl; split_and!; try done;
     intros s;
     (case_decide as Hs;
      [ subst s; rewrite ?insert_insert_eq, lookup_insert_eq, ?HNn, ?HQn; simpl;
        try done; try ring
      | rewrite ?insert_insert_eq, lookup_insert_ne by done;
        try lia; try ring ])).
Qed.

Lemma backpropagate_loop_effect nodes r w :
  ∃ w', backpropagate_loop nodes r w = Ok tt w'
    ∧ children (self w') = children (self w)
    ∧ exploration_weight (self w') = exploration_weight (self w)
    ∧ heap w' = heap w ∧ rng w' = rng w
    ∧ (∀ s, getN w' s = (getN w s + occurrences s nodes)%nat)
    ∧ (∀ s, getQ w' s = getQ w s + gain s nodes r).
Proof.
  revert r w. induction nodes as [|node nodes IH]; intros r w.
  { exists w. split_and!; try done; intros s; simpl; ring. }
  destruct (backpropagate_loop_cons node nodes r w)
    as (w1 & -> & Hc1 & He1 & Hh1 & Hr1 & HN1 & HQ1).
  destruct (IH (flip r) w1) as (w' & -> & Hc & He & Hh & Hr & HN & HQ).
  exists w'. split_and!; try congruence.
  - intros s. rewrite HN, HN1. simpl. lia.
  - intros s. rewrite HQ, HQ1. simpl. ring.
Qed.

Lemma backpropagate_loop_app nodes1 nodes2 r w :
  backpropagate_loop (nodes1 ++ nodes2) r w
  = bind (backpropagate_loop nodes1 r)
      (λ _, backpropagate_loop nodes2 (Nat.iter (length nodes1) flip r)) w.
Proof.
  revert r w. induction nodes1 as [|node nodes1 IH]; intros r w; [done|].
  simpl. unfold bind.
  destruct (N_getitem node w) as [c w1| |]; [|done..].
  destruct (N_setitem node (c + 1) w1) as [[] w2| |]; [|done..].
  destruct (Q_getitem node w2) as [q w3| |]; [|done..].
  destruct (Q_setitem node (q + r) w3) as [[] w4| |]; [|done..].
  rewrite IH. unfold bind. change (1 - r) with (flip r).
  by rewrite <- Nat.iter_succ_r.
Qed.

Lemma occurrences_app (s : Node) (nodes1 nodes2 : list Node) :
  occurrences s (nodes1 ++ nodes2)
  = (occurrences s nodes1 + occurrences s nodes2)%nat.
Proof. induction nodes1 as [|x nodes1 IH]; simpl; [done|]. rewrite IH. lia. Qed.

Lemma occurrences_reverse (s : Node) (nodes : list Node) :
  occurrences s (reverse nodes) = occurrences s nodes.
Proof.
  induction nodes as [|x nodes IH]; [done|].
  rewrite reverse_cons, occurrences_app, IH. simpl. lia.
Qed.

Lemma occurrences_not_in (s : Node) (nodes : list Node) :
  s ∉ nodes → occurrences s nodes = 0%nat.
Proof.
  induction nodes as [|x nodes IH]; [done|]. intros Hs. simpl.
  apply not_elem_of_cons in Hs as [Hx Hs]. rewrite IH by done.
  by rewrite decide_False.
Qed.

Lemma occurrences_NoDup (s : Node) (nodes : list Node) :
  NoDup nodes → s ∈ nodes → occurrences s nodes = 1%nat.
Proof.
  induction nodes as [|x nodes IH]; intros Hnd Hs; [by apply elem_of_nil in Hs|].
  apply NoDup_cons in Hnd as [Hx Hnd]. simpl.
  apply elem_of_cons in Hs as [->|Hs].
  - rewrite decide_True by done. by rewrite occurrences_not_in.
  - rewrite decide_False by (intros ->; done). by rewrite IH.
Qed.

Lemma backpropagate_effect path r w :
  ∃ w', backpropagate path r w = Ok tt w'
    ∧ children (self w') = children (self w)
    ∧ exploration_weight (self w') = exploration_weight (self w)
    ∧ heap w' = heap w ∧ rng w' = rng w
    ∧ (∀ s, getN w' s = (getN w s + occurrences s path)%nat)
    ∧ (∀ s, getQ w' s = getQ w s + gain s (reverse path) r).
Proof.
  unfold backpropagate.
  destruct (backpropagate_loop_effect (reverse path) r w)
    as (w' & Hrun & Hc & He & Hh & Hr & HN & HQ).
  exists w'. split_and!; try done.
  intros s. by rewrite HN, occurrences_reverse.
Qed.

Lemma flip_flip (r : Qc) : flip (flip r) = r.
Proof. unfold flip. ring. Qed.

Lemma flip_sum (r : Qc) (i : nat) :
  Nat.iter i flip r + Nat.iter (S i) flip r = 1.
Proof. simpl. unfold flip at 2. ring. Qed.

Lemma backpropagate_cons node path r w :
  backpropagate (node :: path) r w
  = bind (backpropagate path r)
      (λ _, backpropagate [node] (Nat.iter (length path) flip r)) w.
Proof.
  unfold backpropagate. rewrite reverse_cons, backpropagate_loop_app.
  by rewrite length_reverse.
Qed.

Lemma backpropagate_single node r w :
  ∃ w', backpropagate [node] r w = Ok tt w'
    ∧ children (self w') = children (self w)
    ∧ heap w' = heap w ∧ rng w' = rng w
    ∧ getN w' node = (getN w node + 1)%nat
    ∧ getQ w' node = getQ w node + r
    ∧ ∀ s, s ≠ node → getN w' s = getN w s ∧ getQ w' s = getQ w s.
Proof.
  destruct (backpropagate_effect [node] r w)
    as (w' & Hrun & Hc & _ & Hh & Hr & HN & HQ).
  exists w'. split_and!; try done.
  - rewrite HN. simpl. by rewrite decide_True.
  - rewrite HQ. simpl. rewrite decide_True by done. ring.
  - intros s Hs. rewrite HN, HQ. simpl.
    rewrite !decide_False by done. split; [lia|ring].
Qed.

Lemma after_backpropagate_cons node path r w :
  after (backpropagate (node :: path) r) w
  = after (backpropagate [node] (Nat.iter (length path) flip r))
      (after (backpropagate path r) w).
Proof.
  unfold after. rewrite backpropagate_cons. unfold bind.
  destruct (backpropagate_effect path r w) as (w1 & -> & _). simpl.
  by destruct (backpropagate_single node (Nat.iter (length path) flip r) w1)
    as (w2 & -> & _).
Qed.

(** C3.  [backpropagate] returns for every path and every reward.  On one
    state it adds 1 to the visit count and the reward to the cumulative
    reward, and touches nothing else.  On a longer path it first walks the
    part nearer the leaf, then updates the state above it with the reward
    flipped once for every state below.  Hence what is added at two
    consecutive states sums to 1. *)
Theorem backpropagate_walk (r : Qc) :
  (∀ path w, ∃ w', backpropagate path r w = Ok tt w')
  ∧ (∀ node w, ∃ w', backpropagate [node] r w = Ok tt w'
       ∧ children (self w') = children (self w)
       ∧ heap w' = heap w ∧ rng w' = rng w
       ∧ getN w' node = (getN w node + 1)%nat
       ∧ getQ w' node = getQ w node + r
       ∧ ∀ s, s ≠ node → getN w' s = getN w s ∧ getQ w' s = getQ w s)
  ∧ (∀ node path w,
       backpropagate (node :: path) r w
       = bind (backpropagate path r)
           (λ _, backpropagate [node] (Nat.iter (length path) flip r)) w)
  ∧ (∀ i, Nat.iter i flip r + Nat.iter (S i) flip r = 1)
  ∧ (∀ path w s,
       getN (after (backpropagate path r) w) s
       = (getN w s + occurrences s path)%nat)
  ∧ (∀ a b post w,
       let w1 := after (backpropagate post r) w in
       let w2 := after (backpropagate (b :: post) r) w in
       let w3 := after (backpropagate (a :: b :: post) r) w in
       (getQ w2 b - getQ w1 b) + (getQ w3 a - getQ w2 a) = 1).
Proof.
  split_and!.
  - intros path w. destruct (backpropagate_effect path r w) as (w' & ? & _).
    by exists w'.
  - intros node w. apply backpropagate_single.
  - intros node path w. apply backpropagate_cons.
  - apply flip_sum.
  - intros path w s. unfold after.
    by destruct (backpropagate_effect path r w)
      as (w' & -> & _ & _ & _ & _ & HN & _).
  - intros a b post w w1 w2 w3.
    assert (getQ w2 b = getQ w1 b + Nat.iter (length post) flip r) as ->.
    { unfold w2. rewrite after_backpropagate_cons. fold w1. unfold after.
      by destruct (backpropagate_single b (Nat.iter (length post) flip r) w1)
        as (w' & -> & _ & _ & _ & _ & HQ & _). }
    assert (getQ w3 a = getQ w2 a + Nat.iter (S (length post)) flip r) as ->.
    { unfold w3. rewrite after_backpropagate_cons. fold w2. unfold after.
      by destruct
        (backpropagate_single a (Nat.iter (length (b :: post)) flip r) w2)
        as (w' & -> & _ & _ & _ & _ & HQ & _). }
    rewrite <- (flip_sum r (length post)). ring.
Qed.

(** ** [simulate] *)

Lemma playout_ends_S k node g :
  playout_ends (S k) node g
  = negb (is_terminal node)
    && playout_ends k (find_random_child node g).1 (find_random_child node g).2.
Proof.
  unfold playout_ends. cbn [seq forallb playout fst].
  rewrite <- andb_assoc. f_equal.
  rewrite <- (fmap_S_seq 0 k).
  destruct (find_random_child node g) as [node' g'] eqn:Hdraw.
  cbn [fst snd]. f_equal.
  induction (seq 0 k) as [|i l IH]; [done|].
  cbn [fmap list_fmap forallb playout]. by rewrite IH, Hdraw.
Qed.

Lemma set_rng_id w : set_rng (rng w) w = w.
Proof. by destruct w. Qed.

Lemma simulate_loop_playout k fuel node flag w :
  playout_ends k node (rng w) = true →
  (k < fuel)%nat →
  simulate_loop fuel node flag w
  = Ok (if Nat.iter k negb flag
        then 1 - reward (playout k node (rng w)).1
        else reward (playout k node (rng w)).1)
       (set_rng (playout k node (rng w)).2 w).
Proof.
  revert fuel node flag w.
  induction k as [|k IH]; intros fuel node flag w Hends Hfuel;
    (destruct fuel as [|fuel]; [lia|]).
  - unfold playout_ends in Hends. simpl in *. rewrite Hends.
    unfold ret. by rewrite set_rng_id.
  - rewrite playout_ends_S in Hends. apply andb_prop in Hends as [Hnt Hends].
    apply negb_true_iff in Hnt. simpl. rewrite Hnt.
    unfold bind, random_child.
    destruct (find_random_child node (rng w)) as [node' g'] eqn:Hdraw.
    simpl in Hends. rewrite (IH fuel node' (negb flag) (set_rng g' w)).
    + simpl. change (negb (Nat.iter k negb flag))
        with (Nat.iter (S k) negb flag).
      by rewrite Nat.iter_succ_r.
    + done.
    + lia.
Qed.

(** C5.  When the random walk from [leaf] meets its first terminal state
    after [k] draws, [simulate] returns, given more than [k] units of
    fuel.  The flag is negated once per draw; the result is 1 minus the
    terminal reward if the flag is set at the end and the reward itself if
    not.  As the flag starts set, the first holds when [k] is even and the
    second when [k] is odd. *)
Theorem simulate_result k fuel leaf w :
  playout_ends k leaf (rng w) = true →
  (k < fuel)%nat →
  (∀ flag, simulate_loop fuel leaf flag w
     = Ok (if Nat.iter k negb flag
           then 1 - reward (playout k leaf (rng w)).1
           else reward (playout k leaf (rng w)).1)
          (set_rng (playout k leaf (rng w)).2 w))
  ∧ Nat.iter k negb true = Nat.even k
  ∧ simulate fuel leaf w
    = Ok (if Nat.even k
          then 1 - reward (playout k leaf (rng w)).1
          else reward (playout k leaf (rng w)).1)
         (set_rng (playout k leaf (rng w)).2 w).
Proof.
  intros Hends Hfuel.
  assert (Nat.iter k negb true = Nat.even k) as Hflag.
  { clear. induction k as [|k IH]; [done|].
    rewrite Nat.even_succ, <- Nat.negb_even, <- IH. done. }
  split_and!; [|done|].
  - intros flag. by apply simulate_loop_playout.
  - unfold simulate. rewrite <- Hflag. by apply simulate_loop_playout.
Qed.

(** ** [uct_select] under its precondition *)

Lemma Qcdiv_nonneg (a b : Qc) : 0 <= a → 0 < b → 0 <= a / b.
Proof.
  intros Ha Hb. unfold Qcdiv.
  rewrite <- (Qcmult_0_l (/ b)). apply Qcmult_le_compat_r; [done|].
  by apply Qclt_le_weak, Qcinv_pos.
Qed.

Lemma uct_spec w0 node n w :
  (1 ≤ getN w0 node)%nat → (1 ≤ getN w0 n)%nat → weq w0 w →
  ∃ w', uct (math_log (of_nat (getN w0 node))) n w
        = Ok (uct_value w0 node n) w'
    ∧ weq w0 w'.
Proof.
  intros Hnode Hn Hw. unfold uct, uct_value, bind.
  destruct (Q_getitem_read n w) as (w1 & -> & Hw1).
  destruct (N_getitem_read n w1) as (w2 & -> & Hw2).
  assert (weq w0 w1) as Hw01 by eauto using weq_trans.
  assert (weq w0 w2) as Hw02 by eauto using weq_trans.
  rewrite <- (weq_Q _ _ Hw), <- (weq_N _ _ Hw01).
  unfold py_div at 1.
  destruct (getN w0 n =? 0)%nat eqn:Hc; [apply Nat.eqb_eq in Hc; lia|].
  unfold ret at 1, get_exploration_weight. rewrite <- (weq_weight _ _ Hw02).
  destruct (N_getitem_read n w2) as (w3 & -> & Hw3).
  rewrite <- (weq_N _ _ Hw02). unfold py_div, ret at 1. rewrite Hc.
  unfold py_sqrt.
  rewrite (proj2 (Qc_ltb_ge _ _)).
  - exists w3. split; [done|]. eauto using weq_trans.
  - apply Qcdiv_nonneg; [|by apply of_nat_pos].
    by apply math_log_nonneg, of_nat_ge_1.
Qed.

Lemma uct_select_ok w node l cs :
  stored w node l cs → cs ≠ ∅ →
  (∀ c, c ∈ cs → c ∈ dom (children (self w)) ∧ (1 ≤ getN w c)%nat) →
  (1 ≤ getN w node)%nat →
  ∃ n w', uct_select node w = Ok n w' ∧ n ∈ cs ∧ weq w w'
    ∧ ∀ c, c ∈ cs → ext_le (uct_value w node c) (uct_value w node n).
Proof.
  intros [Hl Hcs] Hne Hchildren Hnode.
  unfold uct_select, bind, children_getitem, set_read, children_keys.
  rewrite Hl, Hcs.
  assert (forallb (λ n, bool_decide (n ∈ dom (children (self w))))
            (set_iter cs) = true) as ->.
  { apply Is_true_true, forallb_True, Forall_forall. intros c Hc.
    apply bool_decide_pack, Hchildren. by apply set_iter_elem. }
  simpl.
  destruct (N_getitem_read node w) as (w1 & -> & Hw1).
  unfold py_log.
  destruct (getN w node =? 0)%nat eqn:Hc; [apply Nat.eqb_eq in Hc; lia|].
  unfold ret at 1.
  rewrite <- (weq_children _ _ Hw1), Hl, <- (weq_heap _ _ Hw1), Hcs.
  destruct (py_max_spec (uct (math_log (of_nat (getN w node))))
              (uct_value w node) (weq w) (set_iter cs) w1)
    as (n & w' & Hmax & Hw' & Hin & Hbest).
  { intros c w2 Hin Hw2. apply uct_spec; [done| |done].
    by apply Hchildren, set_iter_elem. }
  { by rewrite set_iter_nil. }
  { done. }
  exists n, w'. split_and!; [done|by apply set_iter_elem|done|].
  intros c Hin'. by apply Hbest, set_iter_elem.
Qed.

(** ** [expand] *)

Lemma expand_known node w :
  node ∈ dom (children (self w)) → expand node w = Ok tt w.
Proof.
  intros Hkey. unfold expand, bind, children_contains.
  by rewrite bool_decide_eq_true_2.
Qed.

Lemma expand_new node w :
  node ∉ dom (children (self w)) →
  expand node w
  = Ok tt (set_children
             (<[node := fresh (dom (heap w))]> (children (self w)))
             (set_heap (<[fresh (dom (heap w)) := find_children node]> (heap w))
                w)).
Proof.
  intros Hkey. unfold expand, bind, children_contains.
  by rewrite bool_decide_eq_false_2.
Qed.

Lemma expand_effect node w :
  ∃ w', expand node w = Ok tt w'
    ∧ node ∈ dom (children (self w'))
    ∧ Q_ (self w') = Q_ (self w) ∧ N_ (self w') = N_ (self w)
    ∧ exploration_weight (self w') = exploration_weight (self w)
    ∧ rng w' = rng w
    ∧ (∀ s l cs, stored w s l cs → stored w' s l cs)
    ∧ (∀ s l, children (self w') !! s = Some l →
         children (self w) !! s = Some l
         ∨ (s = node ∧ heap w' !! l = Some (find_children node))).
Proof.
  destruct (decide (node ∈ dom (children (self w)))) as [Hkey|Hkey].
  - exists w. rewrite expand_known by done. split_and!; auto.
  - eexists. rewrite expand_new by done. split; [reflexivity|].
    simpl. split_and!; try done.
    + rewrite dom_insert_L. set_solver.
    + intros s l cs [Hl Hcs]. unfold stored. simpl.
      assert (s ≠ node) by (intros ->; apply Hkey, elem_of_dom; eauto).
      assert (l ≠ fresh (dom (heap w))).
      { intros ->. apply (is_fresh (dom (heap w))), elem_of_dom. eauto. }
      by rewrite !lookup_insert_ne.
    + intros s l. destruct (decide (s = node)) as [->|Hs].
      * rewrite lookup_insert_eq. intros [= <-]. right.
        by rewrite lookup_insert_eq.
      * rewrite lookup_insert_ne by done. auto.
Qed.

(** ** Recorded sets never change *)

Lemma keeps_stored_neutral {A} (m : M A) : neutral m → keeps_stored m.
Proof.
  intros Hm w w' node l cs Hfinal%Hm [Hl Hcs]. unfold stored.
  by rewrite <- (weq_children _ _ Hfinal), <- (weq_heap _ _ Hfinal).
Qed.

Lemma keeps_stored_bind {A B} (m : M A) (f : A → M B) :
  keeps_stored m → (∀ a, keeps_stored (f a)) → keeps_stored (bind m f).
Proof.
  intros Hm Hf w w' node l cs. unfold bind. specialize (Hm w).
  destruct (m w) as [a w1| |]; simpl; [|eauto|done].
  intros Hw' Hstored. eapply Hf; [done|]. by eapply Hm.
Qed.

Lemma keeps_stored_expand node : keeps_stored (expand node : M _).
Proof.
  intros w w' s l cs.
  destruct (expand_effect node w) as (w1 & -> & _ & _ & _ & _ & _ & Hkeep & _).
  intros [= <-]. apply Hkeep.
Qed.

Lemma simulate_loop_frame fuel node flag w w' :
  final (simulate_loop fuel node flag w) = Some w' →
  self w' = self w ∧ heap w' = heap w.
Proof.
  revert node flag w. induction fuel as [|fuel IH]; intros node flag w; [done|].
  simpl. destruct (is_terminal node); [by intros [= <-]|].
  unfold bind, random_child.
  destruct (find_random_child node (rng w)) as [node' g'].
  intros Hrun. by apply IH in Hrun.
Qed.

Lemma simulate_loop_no_raise fuel node flag w e w' :
  simulate_loop fuel node flag w ≠ Raise e w'.
Proof.
  revert node flag w. induction fuel as [|fuel IH]; intros node flag w; [done|].
  simpl. destruct (is_terminal node); [done|].
  unfold bind, random_child.
  destruct (find_random_child node (rng w)) as [node' g'].
  specialize (IH node' (negb flag) (set_rng g' w)).
  by destruct (simulate_loop fuel node' (negb flag) (set_rng g' w)).
Qed.

Lemma keeps_stored_simulate fuel node : keeps_stored (simulate fuel node : M _).
Proof.
  intros w w' s l cs [Hself Hheap]%simulate_loop_frame. unfold stored.
  by rewrite Hself, Hheap.
Qed.

Lemma keeps_stored_backpropagate path r :
  keeps_stored (backpropagate path r : M _).
Proof.
  intros w w' s l cs.
  destruct (backpropagate_effect path r w) as (w1 & -> & Hc & _ & Hh & _).
  intros [= <-]. unfold stored. by rewrite Hc, Hh.
Qed.

Lemma keeps_stored_rollout fuel node : keeps_stored (rollout fuel node : M _).
Proof.
  unfold rollout.
  apply keeps_stored_bind; [apply keeps_stored_neutral, neutral_select_loop|].
  intros path. apply keeps_stored_bind.
  { apply keeps_stored_neutral. unfold py_last.
    destruct (last path); [apply neutral_ret|apply neutral_raise]. }
  intros leaf. apply keeps_stored_bind; [apply keeps_stored_expand|].
  intros _. apply keeps_stored_bind; [apply keeps_stored_simulate|].
  intros r. apply keeps_stored_backpropagate.
Qed.

(** C8.  No operation of the engine changes a recorded set: not [expand],
    [select], [uct_select], [simulate], [backpropagate], a whole [rollout],
    nor [choose].  [expand] on an expanded state does nothing at all, so a
    second [expand] of the same state does nothing; and the turn in which
    [select] computes the unexplored children leaves the world exactly as
    it found it, the temporary set having been created, popped and
    dropped. *)
Theorem recorded_children_never_change :
  (∀ node, keeps_stored (expand node : M _))
  ∧ (∀ fuel node, keeps_stored (select fuel node : M _))
  ∧ (∀ node, keeps_stored (uct_select node : M _))
  ∧ (∀ fuel node, keeps_stored (simulate fuel node : M _))
  ∧ (∀ path r, keeps_stored (backpropagate path r : M _))
  ∧ (∀ fuel node, keeps_stored (rollout fuel node : M _))
  ∧ (∀ node, keeps_stored (choose node : M _))
  ∧ (∀ node w, node ∈ dom (children (self w)) → expand node w = Ok tt w)
  ∧ (∀ node w w1, expand node w = Ok tt w1 → expand node w1 = Ok tt w1)
  ∧ (∀ node path w, final (select_turn node path w) = Some w).
Proof.
  split_and!.
  - apply keeps_stored_expand.
  - intros fuel node. apply keeps_stored_neutral, neutral_select_loop.
  - intros node. apply keeps_stored_neutral, neutral_uct_select.
  - apply keeps_stored_simulate.
  - apply keeps_stored_backpropagate.
  - apply keeps_stored_rollout.
  - intros node. apply keeps_stored_neutral, neutral_choose.
  - apply expand_known.
  - intros node w w1 Hrun. apply expand_known.
    destruct (expand_effect node w) as (w2 & Hrun2 & Hkey & _). congruence.
  - apply select_turn_final.
Qed.

(** ** The invariant of reachable worlds *)

Lemma Inv_weq w w' : weq w w' → Inv w → Inv w'.
Proof.
  intros Hw [Hsets Hvisited]. split.
  - intros n l. rewrite <- (weq_children _ _ Hw), <- (weq_heap _ _ Hw). auto.
  - intros n. rewrite <- (weq_children _ _ Hw), <- (weq_N _ _ Hw). auto.
Qed.

Lemma rollout_inv fuel node w w' :
  rollout fuel node w = Ok tt w' →
  ∃ path leaf w1 w2 r w3,
    select fuel node w = Ok path w1
    ∧ last path = Some leaf
    ∧ expand leaf w1 = Ok tt w2
    ∧ simulate fuel leaf w2 = Ok r w3
    ∧ backpropagate path r w3 = Ok tt w'.
Proof.
  unfold rollout, bind, py_last.
  destruct (select fuel node w) as [path w1| |]; [|done..].
  destruct (last path) as [leaf|] eqn:Hleaf; [|done]. unfold ret at 1.
  destruct (expand leaf w1) as [[] w2| |] eqn:Hexp; [|done..].
  destruct (simulate fuel leaf w2) as [r w3| |] eqn:Hsim; [|done..].
  intros Hrun. by exists path, leaf, w1, w2, r, w3.
Qed.

Lemma rollout_Inv fuel node w w' :
  Inv w → rollout fuel node w = Ok tt w' → Inv w'.
Proof.
  intros HInv (path & leaf & w1 & w2 & r & w3 & Hsel & Hleaf & Hexp & Hsim & Hbp)
    %rollout_inv.
  assert (weq w w1) as Hw1
    by (apply (neutral_select_loop fuel node []); unfold select in Hsel;
        by rewrite Hsel).
  apply (Inv_weq _ _ Hw1) in HInv as [Hsets Hvisited].
  destruct (expand_effect leaf w1)
    as (w2' & Hexp' & Hkey & HQ2 & HN2 & _ & _ & Hkeep & Hnew).
  rewrite Hexp in Hexp'. injection Hexp' as <-.
  assert (final (simulate fuel leaf w2) = Some w3) as [Hself3 Hheap3]
    %simulate_loop_frame by (by rewrite Hsim).
  destruct (backpropagate_effect path r w3)
    as (w4 & Hbp' & Hc4 & _ & Hh4 & _ & HN4 & _).
  rewrite Hbp in Hbp'. injection Hbp' as <-.
  split.
  - intros n l. rewrite Hc4, Hh4, Hself3, Hheap3. intros Hl.
    destruct (Hnew n l Hl) as [Hold|[-> Hfresh]]; [|done].
    destruct (Hkeep n l (find_children n)) as [_ ?]; [|done].
    split; [done|]. by apply Hsets.
  - intros n. rewrite Hc4, HN4, Hself3. intros Hn.
    destruct (decide (n ∈ dom (children (self w1)))) as [Hold|Hnot].
    + specialize (Hvisited n Hold).
      assert (getN w3 n = getN w1 n) as ->
        by (unfold getN; by rewrite Hself3, HN2).
      lia.
    + assert (n = leaf) as ->.
      { apply elem_of_dom in Hn as [l Hl].
        destruct (Hnew n l Hl) as [Hold|[-> _]]; [|done].
        exfalso. apply Hnot, elem_of_dom. eauto. }
      assert (leaf ∈ path) as Hin by (by apply last_Some_elem_of).
      assert (1 ≤ occurrences leaf path)%nat.
      { clear -Hin. induction path as [|x path IH]; [by apply elem_of_nil in Hin|].
        simpl. apply elem_of_cons in Hin as [->|Hin].
        - rewrite decide_True by done. lia.
        - specialize (IH Hin). lia. }
      lia.
Qed.

Lemma reachable_Inv w : reachable w → Inv w.
Proof.
  induction 1 as [weight h g|w fuel node w' _ IH Hrun|w node w' _ IH Hrun].
  - split; intros n; simpl; [by rewrite lookup_empty|].
    rewrite dom_empty_L. by intros ?%not_elem_of_empty.
  - by eapply rollout_Inv.
  - apply (Inv_weq w); [|done]. by apply (neutral_choose node).
Qed.

(** ** [select] in reachable worlds *)

Lemma select_at_weq w0 root node path w :
  select_at w0 root node path w → weq w0 w.
Proof.
  induction 1 as [|node path w path' w1 node' w2 _ IH Hturn Huct].
  - apply weq_refl.
  - pose proof (select_turn_final node path w) as Hfinal.
    rewrite Hturn in Hfinal. injection Hfinal as ->.
    eapply weq_trans; [exact IH|].
    apply (neutral_uct_select node). by rewrite Huct.
Qed.

Lemma Inv_uct_pre w node l cs :
  Inv w → stored w node l cs →
  (∀ c, c ∈ cs → c ∈ dom (children (self w))) →
  (∀ c, c ∈ cs → c ∈ dom (children (self w)) ∧ (1 ≤ getN w c)%nat)
  ∧ (1 ≤ getN w node)%nat.
Proof.
  intros [_ Hvisited] [Hl _] Hknown. split.
  - intros c Hc. split; [by apply Hknown|]. by apply Hvisited, Hknown.
  - apply Hvisited, elem_of_dom. eauto.
Qed.

Lemma select_loop_no_raise fuel node path w e w' :
  Inv w → select_loop fuel node path w ≠ Raise e w'.
Proof.
  revert node path w. induction fuel as [|fuel IH]; intros node path w HInv;
    [done|].
  simpl. unfold bind.
  destruct (select_turn_cases node path w)
    as [(d & -> & _)|[(-> & l & cs & Hstored & Hne & Hknown)
                     |(_ & Hkey & Hdangling)]]; [done| |].
  - destruct (Inv_uct_pre w node l cs) as [Hchildren Hnode]; [done..|].
    destruct (uct_select_ok w node l cs)
      as (n & w1 & -> & _ & Hw1 & _); [done..|].
    apply IH. by apply (Inv_weq w).
  - exfalso. apply elem_of_dom in Hkey as [l Hl]. unfold children_of in Hdangling.
    rewrite Hl in Hdangling. simpl in Hdangling.
    destruct HInv as [Hsets _]. by rewrite (Hsets _ _ Hl) in Hdangling.
Qed.

(** C4.  In a reachable world, whenever a turn of the loop of [select]
    goes on to [uct_select node], the set recorded for [node] has all its
    members among the keys of [self.children], each visited at least once,
    and [node] itself has been visited at least once.  So [uct_select]
    returns: no assertion fails, nothing is divided by zero, no logarithm
    is taken of zero.  And [select] as a whole raises nothing. *)
Theorem uct_select_precondition w0 root node path w path' w1 :
  reachable w0 →
  select_at w0 root node path w →
  select_turn node path w = Ok (inr path') w1 →
  uct_pre w1 node
  ∧ (∃ node' w2, uct_select node w1 = Ok node' w2)
  ∧ (∀ fuel e w', select fuel root w0 ≠ Raise e w').
Proof.
  intros HInv0%reachable_Inv Hat Hturn.
  assert (Inv w) as HInv by (eapply Inv_weq; [by eapply select_at_weq|done]).
  pose proof (select_turn_final node path w) as Hfinal.
  rewrite Hturn in Hfinal. injection Hfinal as ->.
  destruct (select_turn_cases node path w)
    as [(d & Hturn' & _)|[(_ & l & cs & Hstored & Hne & Hknown)
                         |(Hturn' & _)]]; [congruence| |congruence].
  destruct (Inv_uct_pre w node l cs) as [Hchildren Hnode]; [done..|].
  split_and!.
  - exists cs. split_and!; [|done..].
    destruct Hstored as [Hl Hcs]. unfold children_of. by rewrite Hl.
  - destruct (uct_select_ok w node l cs) as (n & w2 & Huct & _); [done..|].
    eauto.
  - intros fuel e w'. by apply select_loop_no_raise.
Qed.

(** ** Counting visits of the root *)

Lemma select_path fuel root w path w1 :
  select fuel root w = Ok path w1 →
  NoDup path ∧ root ∈ path ∧ occurrences root path = 1%nat ∧ weq w w1.
Proof.
  intros Hsel. unfold select in Hsel.
  destruct (select_loop_NoDup _ _ _ _ _ Hsel) as [Hnd Hhead].
  assert (root ∈ path) by (by apply head_Some_elem_of).
  split_and!; [done..|by apply occurrences_NoDup|].
  apply (neutral_select_loop fuel root []). by rewrite Hsel.
Qed.

Lemma rollout_visits fuel root w w' :
  rollout fuel root w = Ok tt w' → getN w' root = (getN w root + 1)%nat.
Proof.
  intros (path & leaf & w1 & w2 & r & w3 & Hsel & Hleaf & Hexp & Hsim & Hbp)
    %rollout_inv.
  apply select_path in Hsel as (_ & _ & Hocc & Hw1).
  destruct (expand_effect leaf w1) as (w2' & Hexp' & _ & _ & HN2 & _).
  rewrite Hexp in Hexp'. injection Hexp' as <-.
  assert (final (simulate fuel leaf w2) = Some w3) as [Hself3 _]
    %simulate_loop_frame by (by rewrite Hsim).
  destruct (backpropagate_effect path r w3)
    as (w4 & Hbp' & _ & _ & _ & _ & HN4 & _).
  rewrite Hbp in Hbp'. injection Hbp' as <-.
  rewrite HN4, Hocc, (weq_N _ _ Hw1). unfold getN. by rewrite Hself3, HN2.
Qed.

Lemma rollouts_visits fuel k root w w' :
  rollouts fuel k root w = Ok tt w' → getN w' root = (getN w root + k)%nat.
Proof.
  revert w. induction k as [|k IH]; intros w; simpl.
  - intros [= <-]. lia.
  - unfold bind. destruct (rollout fuel root w) as [[] w1| |] eqn:Hrun; [|done..].
    intros Hrest%IH. apply rollout_visits in Hrun. lia.
Qed.

(** C2.  After [k] calls of [rollout root] on a fresh engine have
    returned, the visit count of [root] is [k].  For: a path [select root]
    returns holds no state twice, and holds [root]; and on a path without
    repetition [backpropagate] adds exactly 1 to the visit count of every
    state of the path. *)
Theorem rollouts_count_root fuel k root weight h g w' :
  rollouts fuel k root (init_world weight h g) = Ok tt w' →
  getN w' root = k
  ∧ (∀ fuel' w path w1,
       select fuel' root w = Ok path w1 →
       occurrences root path = 1%nat ∧ NoDup path)
  ∧ (∀ path r w s,
       NoDup path → s ∈ path →
       getN (after (backpropagate path r) w) s = (getN w s + 1)%nat).
Proof.
  intros Hrun%rollouts_visits. split_and!.
  - rewrite Hrun. unfold getN. simpl. by rewrite lookup_empty.
  - intros fuel' w path w1 (? & _ & ? & _)%select_path. done.
  - intros path r w s Hnd Hs. unfold after.
    destruct (backpropagate_effect path r w)
      as (w1 & -> & _ & _ & _ & _ & HN & _).
    simpl. by rewrite HN, occurrences_NoDup.
Qed.

(** ** A rollout from a terminal root *)

(** C10.  Let [root] be terminal, with no successors, in a reachable
    world.  With any fuel but none, [rollout root] returns: [select]
    returns the path [[root]] and changes nothing, after [expand] the set
    recorded for [root] is [find_children root], [simulate] returns 1
    minus the reward of [root] without a draw, and [backpropagate] adds 1
    to the visit count of [root] and that value to its cumulative
    reward. *)
Theorem rollout_terminal_root fuel root w :
  reachable w →
  is_terminal root = true →
  find_children root = ∅ →
  ∃ w2 w',
    select (S fuel) root w = Ok [root] w
    ∧ expand root w = Ok tt w2
    ∧ children_of w2 root = Some (find_children root)
    ∧ simulate (S fuel) root w2 = Ok (1 - reward root) w2
    ∧ backpropagate [root] (1 - reward root) w2 = Ok tt w'
    ∧ rollout (S fuel) root w = Ok tt w'
    ∧ getN w' root = (getN w root + 1)%nat
    ∧ getQ w' root = getQ w root + (1 - reward root).
Proof.
  intros [Hsets _]%reachable_Inv Hterm Hleaf.
  assert (select (S fuel) root w = Ok [root] w) as Hsel.
  { unfold select. simpl. unfold bind. rewrite select_turn_eq.
    destruct (children (self w) !! root) as [l|] eqn:Hl; [|done].
    rewrite (Hsets _ _ Hl), Hleaf. by rewrite bool_decide_eq_true_2. }
  destruct (expand_effect root w)
    as (w2 & Hexp & Hkey & HQ2 & HN2 & _ & _ & Hkeep & Hnew).
  assert (children_of w2 root = Some (find_children root)) as Hrec.
  { apply elem_of_dom in Hkey as [l Hl]. unfold children_of. rewrite Hl. simpl.
    destruct (Hnew root l Hl) as [Hold|[_ Hfresh]]; [|done].
    by apply (Hkeep root l (find_children root)), conj, Hsets. }
  assert (simulate (S fuel) root w2 = Ok (1 - reward root) w2) as Hsim.
  { unfold simulate. simpl. by rewrite Hterm. }
  destruct (backpropagate_single root (1 - reward root) w2)
    as (w' & Hbp & _ & _ & _ & HN & HQ & _).
  exists w2, w'. split_and!; try done.
  - unfold rollout, bind. rewrite Hsel. simpl. by rewrite Hexp, Hsim.
  - rewrite HN. unfold getN. by rewrite HN2.
  - rewrite HQ. unfold getQ. by rewrite HQ2.
Qed.

Lemma reachable_rollouts fuel k root w w' :
  reachable w → rollouts fuel k root w = Ok tt w' → reachable w'.
Proof.
  revert w. induction k as [|k IH]; intros w Hw; simpl.
  - by intros [= <-].
  - unfold bind. destruct (rollout fuel root w) as [[] w1| |] eqn:Hrun; [|done..].
    apply IH. by eapply reachable_rollout.
Qed.

(** In a game where a state without successors is terminal, a reachable
    engine records a non-empty set for every non-terminal state it has
    expanded. *)
Lemma reachable_children_nonempty w root l cs :
  (∀ n, find_children n = ∅ → is_terminal n = true) →
  reachable w → is_terminal root = false → stored w root l cs → cs ≠ ∅.
Proof.
  intros Hcontract [Hsets _]%reachable_Inv Hterm [Hl Hcs] ->.
  rewrite (Hsets _ _ Hl) in Hcs. injection Hcs as Hcs.
  apply Hcontract in Hcs. congruence.
Qed.

(** C1.  Let the game report every state without successors as terminal,
    as the contract of [is_terminal] has it.  In every reachable world, on
    every non-terminal state that has been expanded, [choose] returns a
    member of the set recorded for that state whose mean reward, cumulative
    reward divided by visit count, is maximal.  A child with visit count 0
    scores negative infinity: whenever some child has been visited, so has
    the one returned, and its average is at least that child's. *)
Theorem choose_maximizes_mean_reward w root l cs :
  (∀ n, find_children n = ∅ → is_terminal n = true) →
  reachable w →
  is_terminal root = false →
  stored w root l cs →
  ∃ c w', choose root w = Ok c w'
    ∧ c ∈ cs
    ∧ (∀ c', c' ∈ cs → ext_le (mean_reward w c') (mean_reward w c))
    ∧ (∀ c', c' ∈ cs → getN w c' = 0%nat → mean_reward w c' = NegInf)
    ∧ (∀ c', c' ∈ cs → (1 ≤ getN w c')%nat →
         (1 ≤ getN w c)%nat
         ∧ getQ w c' / of_nat (getN w c') <= getQ w c / of_nat (getN w c)).
Proof.
  intros Hcontract Hreach Hterm Hstored.
  pose proof (reachable_children_nonempty w root l cs
                Hcontract Hreach Hterm Hstored) as Hne.
  destruct (choose_best w root l cs Hterm Hstored Hne)
    as (c & w' & Hchoose & Hin & Hbest & Hvisited).
  exists c, w'. split_and!; [done..| |done].
  intros c' _ Hzero. unfold mean_reward. by rewrite Hzero.
Qed.

(** On a non-terminal state recorded with the empty set, [max] has
    nothing to choose from. *)
Lemma choose_empty w root l :
  is_terminal root = false → stored w root l ∅ →
  choose root w = Raise ValueError w.
Proof.
  intros Hterm [Hl Hcs]. unfold choose, bind. rewrite Hterm.
  rewrite children_contains_eq, bool_decide_eq_true_2 by (by rewrite Hl).
  simpl. unfold children_getitem, set_read. rewrite Hl, Hcs.
  by rewrite (proj2 (set_iter_nil ∅)).
Qed.

(** X15.  [choose] has no guard for a state recorded without children:
    when a state that [is_terminal] does not report terminal is recorded
    with the empty set, as happens once [find_children] has returned an
    empty set for it, [choose] raises [ValueError], the exception of [max]
    on an empty sequence, and changes nothing. *)
Theorem choose_on_empty_set_raises w root l :
  is_terminal root = false →
  stored w root l ∅ →
  choose root w = Raise ValueError w
  ∧ ∀ c w', choose root w ≠ Ok c w'.
Proof.
  intros Hterm Hstored. rewrite (choose_empty w root l) by done.
  split; [done|]. by intros c w'.
Qed.

(** ** The shape of the path [select] returns *)

Lemma max_loop_elem key maxitem maxval it w c w' :
  max_loop key maxitem maxval it w = Ok c w' → c ∈ maxitem :: it.
Proof.
  revert maxitem maxval w. induction it as [|item it IH]; intros maxitem maxval w.
  - intros [= <- _]. apply list_elem_of_here.
  - simpl. unfold bind. destruct (key item w) as [val w1| |]; [|done..].
    destruct (ext_ltb maxval val); intros Hin%IH;
      revert Hin; rewrite !elem_of_cons; tauto.
Qed.

Lemma py_max_elem key it w c w' : py_max key it w = Ok c w' → c ∈ it.
Proof.
  destruct it as [|item it]; [done|]. simpl. unfold bind.
  destruct (key item w) as [val w1| |]; [|done..]. apply max_loop_elem.
Qed.

(** Whatever the world, what [uct_select] returns is a recorded child. *)
Lemma uct_select_elem node w n w' :
  uct_select node w = Ok n w' →
  ∃ cs, children_of w node = Some cs ∧ n ∈ cs.
Proof.
  unfold uct_select, bind, children_getitem, set_read, children_keys, children_of.
  destruct (children (self w) !! node) as [l|] eqn:Hl; [|done].
  destruct (heap w !! l) as [cs|] eqn:Hcs; [|done]. simpl.
  destruct (negb _); [done|].
  destruct (N_getitem_read node w) as (w1 & -> & Hw1).
  unfold py_log. destruct (getN w node =? 0)%nat; [done|]. unfold ret at 1.
  rewrite <- (weq_children _ _ Hw1), Hl, <- (weq_heap _ _ Hw1), Hcs.
  intros Hin%py_max_elem. exists cs. simpl.
  split; [done|]. by apply set_iter_elem.
Qed.

Lemma children_of_weq w w' node :
  weq w w' → children_of w' node = children_of w node.
Proof.
  intros Hw. unfold children_of.
  by rewrite (weq_children _ _ Hw), (weq_heap _ _ Hw).
Qed.

Lemma chain_cons w x y (rest : list Node) :
  chain w (x :: y :: rest)
  ↔ (∃ cs, children_of w x = Some cs ∧ y ∈ cs) ∧ chain w (y :: rest).
Proof. done. Qed.

Lemma chain_weq w w' path : weq w w' → chain w path → chain w' path.
Proof.
  intros Hw. induction path as [|x [|y rest] IH]; [done..|].
  rewrite !chain_cons. intros [(cs & Hcs & Hy) Hrest]. split; [|by apply IH].
  exists cs. by rewrite (children_of_weq _ _ _ Hw).
Qed.

(** The turn that returns with an unexplored child returns a recorded
    child that is not a key. *)
Lemma select_turn_inl node path w p w' :
  select_turn node path w = Ok (inl p) w' →
  (p = path ++ [node]
   ∧ (node ∉ dom (children (self w)) ∨ children_of w node = Some ∅))
  ∨ (∃ n cs, p = path ++ [node; n] ∧ children_of w node = Some cs
       ∧ n ∈ cs ∧ n ∉ dom (children (self w))).
Proof.
  rewrite select_turn_eq. unfold children_of.
  destruct (children (self w) !! node) as [l|] eqn:Hl; simpl.
  2:{ intros [= <- _]. left. split; [done|]. left. by apply not_elem_of_dom. }
  destruct (heap w !! l) as [cs|] eqn:Hcs; [|done].
  case_bool_decide as Hempty.
  { intros [= <- _]. left. subst. auto. }
  destruct (set_iter (cs ∖ dom (children (self w)))) as [|n rest] eqn:Hiter;
    [done|].
  intros [= <- _]. right. exists n, cs. rewrite <- app_assoc.
  assert (n ∈ cs ∖ dom (children (self w))) as [? ?]%elem_of_difference
    by (apply set_iter_elem; rewrite Hiter; apply list_elem_of_here).
  done.
Qed.

Lemma select_loop_shape fuel node w p w' :
  select_loop fuel node [] w = Ok p w' →
  chain w p
  ∧ ∃ leaf, last p = Some leaf
      ∧ (leaf ∉ dom (children (self w)) ∨ children_of w leaf = Some ∅).
Proof.
  revert node w p. induction fuel as [|fuel IH]; intros node w p Hrun; [done|].
  simpl in Hrun. unfold bind in Hrun.
  destruct (select_turn node [] w) as [[q|q] w1| |] eqn:Hturn; [| |done..].
  - injection Hrun as <- <-.
    apply select_turn_inl in Hturn as [[-> Hleaf]|(n & cs & -> & Hcs & Hn & Hout)].
    + split; [done|]. by exists node.
    + change ([] ++ [node; n]) with [node; n]. split.
      * apply chain_cons. split; [by exists cs|done].
      * exists n. split; [done|by left].
  - pose proof (select_turn_final node [] w) as Hfinal.
    rewrite Hturn in Hfinal. injection Hfinal as ->.
    assert (q = [node]) as ->.
    { destruct (select_turn_cases node [] w)
        as [(d & Hturn' & _)|[[Hturn' _]|[Hturn' _]]];
        simpl in Hturn'; congruence. }
    destruct (uct_select node w) as [n1 w1| |] eqn:Huct; [|done..].
    assert (weq w w1) as Hw1 by (apply (neutral_uct_select node); by rewrite Huct).
    apply uct_select_elem in Huct as (cs & Hcs & Hn1).
    rewrite select_loop_path in Hrun.
    destruct (select_loop fuel n1 [] w1) as [p1 w1'| |] eqn:Hrun1; [|done..].
    simpl in Hrun. injection Hrun as <- <-.
    destruct (select_loop_NoDup _ _ _ _ _ Hrun1) as [_ Hhead].
    destruct (IH _ _ _ Hrun1) as (Hchain & leaf & Hlast & Hleaf).
    destruct p1 as [|x rest]; [done|]. injection Hhead as ->.
    split.
    + apply chain_cons. split; [eauto|].
      apply (chain_weq w1 w); [by apply weq_sym|done].
    + exists leaf. split; [by rewrite last_cons, Hlast|].
      by rewrite (weq_children _ _ Hw1), <- (children_of_weq _ _ _ Hw1).
Qed.

Lemma select_returns_path_facts fuel root w path w' :
  select fuel root w = Ok path w' →
  head path = Some root ∧ NoDup path ∧ chain w path
  ∧ children (self w') = children (self w)
  ∧ (∀ s, getN w' s = getN w s) ∧ (∀ s, getQ w' s = getQ w s)
  ∧ exploration_weight (self w') = exploration_weight (self w).
Proof.
  intros Hsel. unfold select in Hsel.
  destruct (select_loop_NoDup _ _ _ _ _ Hsel) as [Hnd Hhead].
  destruct (select_loop_shape _ _ _ _ _ Hsel) as [Hchain _].
  assert (weq w w') as [Hc He _ HN HQ]
    by (apply (neutral_select_loop fuel root []); by rewrite Hsel).
  split_and!; done.
Qed.

(** X2.  A path [select] returns starts at the state it was called with,
    passes through no state twice, follows the recorded children from each
    state to the next, and ends in a state that is not expanded or is
    recorded without children.  [select] leaves the set objects and the
    dictionary of children as they were, and every count and reward reads
    as before. *)
Theorem select_returns_branch fuel root w path w' :
  select fuel root w = Ok path w' →
  head path = Some root
  ∧ NoDup path
  ∧ chain w path
  ∧ (∃ leaf, last path = Some leaf
       ∧ (leaf ∉ dom (children (self w)) ∨ children_of w leaf = Some ∅))
  ∧ children (self w') = children (self w) ∧ heap w' = heap w
  ∧ ∀ s, getN w' s = getN w s ∧ getQ w' s = getQ w s.
Proof.
  intros Hsel. unfold select in Hsel.
  destruct (select_loop_NoDup _ _ _ _ _ Hsel) as [Hnd Hhead].
  destruct (select_loop_shape _ _ _ _ _ Hsel) as [Hchain Hleaf].
  assert (weq w w') as [Hc _ Hh HN HQ]
    by (apply (neutral_select_loop fuel root []); by rewrite Hsel).
  split_and!; done.
Qed.

(** ** What one rollout changes *)

Lemma expand_dom node w w' :
  expand node w = Ok tt w' →
  dom (children (self w')) = dom (children (self w)) ∪ {[node]}.
Proof.
  destruct (decide (node ∈ dom (children (self w)))) as [Hkey|Hkey].
  - rewrite expand_known by done. intros Hw. injection Hw as <-.
    apply set_eq. intros x. rewrite elem_of_union, elem_of_singleton.
    split; [auto|]. by intros [?| ->].
  - rewrite expand_new by done. intros Hw. injection Hw as <-. simpl.
    rewrite dom_insert_L. apply (comm_L (∪)).
Qed.

Lemma occurrences_indicator (s : Node) (nodes : list Node) :
  NoDup nodes →
  occurrences s nodes = if decide (s ∈ nodes) then 1%nat else 0%nat.
Proof.
  intros Hnd. case_decide.
  - by apply occurrences_NoDup.
  - by apply occurrences_not_in.
Qed.

Lemma gain_not_in (s : Node) (nodes : list Node) r :
  s ∉ nodes → gain s nodes r = 0.
Proof.
  revert r. induction nodes as [|x nodes IH]; intros r Hs; [done|].
  apply not_elem_of_cons in Hs as [Hx Hs]. simpl.
  rewrite decide_False by done. rewrite IH by done. ring.
Qed.

Lemma chain_keys w path leaf (s : Node) :
  chain w path → last path = Some leaf → s ∈ path →
  s = leaf ∨ s ∈ dom (children (self w)).
Proof.
  induction path as [|x [|y rest] IH]; intros Hchain Hlast Hs.
  - by apply elem_of_nil in Hs.
  - apply list_elem_of_singleton in Hs as ->. injection Hlast as ->. by left.
  - apply chain_cons in Hchain as [(cs & Hcs & _) Hchain].
    apply elem_of_cons in Hs as [->|Hs].
    + right. unfold children_of in Hcs. apply elem_of_dom.
      by destruct (children (self w) !! x).
    + apply IH; [done| |done]. by rewrite last_cons_cons in Hlast.
Qed.

(** A rollout that returns, taken apart: the path, its leaf, the reward
    of the playout, and what has become of the keys and the counters. *)
Lemma rollout_effect fuel root w w' :
  rollout fuel root w = Ok tt w' →
  ∃ path leaf w1 w2 r w3,
    select fuel root w = Ok path w1
    ∧ last path = Some leaf ∧ head path = Some root
    ∧ NoDup path ∧ chain w path
    ∧ simulate fuel leaf w2 = Ok r w3
    ∧ dom (children (self w')) = dom (children (self w)) ∪ {[leaf]}
    ∧ exploration_weight (self w') = exploration_weight (self w)
    ∧ (∀ s, getN w' s = (getN w s + occurrences s path)%nat)
    ∧ (∀ s, getQ w' s = getQ w s + gain s (reverse path) r).
Proof.
  intros (path & leaf & w1 & w2 & r & w3 & Hsel & Hleaf & Hexp & Hsim & Hbp)
    %rollout_inv.
  exists path, leaf, w1, w2, r, w3.
  destruct (select_returns_path_facts fuel root w path w1 Hsel)
    as (Hhead & Hnd & Hchain & Hc1 & HN1 & HQ1 & He1).
  destruct (expand_effect leaf w1) as (w2' & Hexp' & _ & HQ2 & HN2 & He2 & _).
  rewrite Hexp in Hexp'. injection Hexp' as <-.
  apply expand_dom in Hexp.
  assert (final (simulate fuel leaf w2) = Some w3) as [Hself3 _]
    %simulate_loop_frame by (by rewrite Hsim).
  destruct (backpropagate_effect path r w3)
    as (w4 & Hbp' & Hc4 & He4 & _ & _ & HN4 & HQ4).
  rewrite Hbp in Hbp'. injection Hbp' as <-.
  split_and!; try done.
  - by rewrite Hc4, Hself3, Hexp, Hc1.
  - by rewrite He4, Hself3, He2, He1.
  - intros s. rewrite HN4, <- HN1. unfold getN. by rewrite Hself3, HN2.
  - intros s. rewrite HQ4, <- HQ1. unfold getQ. by rewrite Hself3, HQ2.
Qed.

(** X1.  A rollout that returns has selected a path from the root to a
    leaf.  The leaf is the one key [self.children] gains, if it was not a
    key already; every state of the path has its visit count raised by
    exactly 1; no other state has its visit count or its cumulative reward
    changed; the exploration weight is as it was. *)
Theorem rollout_updates_the_path fuel root w w' :
  rollout fuel root w = Ok tt w' →
  ∃ path leaf w1,
    select fuel root w = Ok path w1
    ∧ head path = Some root ∧ last path = Some leaf
    ∧ dom (children (self w')) = dom (children (self w)) ∪ {[leaf]}
    ∧ (∀ s, s ∈ path → getN w' s = (getN w s + 1)%nat)
    ∧ (∀ s, s ∉ path → getN w' s = getN w s ∧ getQ w' s = getQ w s)
    ∧ exploration_weight (self w') = exploration_weight (self w).
Proof.
  intros (path & leaf & w1 & w2 & r & w3 & Hsel & Hleaf & Hhead & Hnd & _
          & _ & Hdom & He & HN & HQ)%rollout_effect.
  exists path, leaf, w1. split_and!; try done.
  - intros s Hs. by rewrite HN, occurrences_NoDup.
  - intros s Hs. rewrite HN, HQ, occurrences_not_in by done.
    rewrite gain_not_in by (by rewrite elem_of_reverse).
    split; [lia|ring].
Qed.

(** ** Nothing is forgotten *)

Lemma grows_refl w : grows w w.
Proof. split; [done|]. intros s. lia. Qed.

Lemma grows_trans w1 w2 w3 : grows w1 w2 → grows w2 w3 → grows w1 w3.
Proof.
  intros [Hd1 HN1] [Hd2 HN2]. split; [by etrans|].
  intros s. specialize (HN1 s). specialize (HN2 s). lia.
Qed.

Lemma growing_neutral {A} (m : M A) : neutral m → growing m.
Proof.
  intros Hm w w' Hw%Hm. split.
  - by rewrite (weq_children _ _ Hw).
  - intros s. rewrite (weq_N _ _ Hw). lia.
Qed.

Lemma growing_bind {A B} (m : M A) (f : A → M B) :
  growing m → (∀ a, growing (f a)) → growing (bind m f).
Proof.
  intros Hm Hf w w'. unfold bind. specialize (Hm w).
  destruct (m w) as [a w1| |]; simpl; [|eauto|done].
  intros Hw'. eapply grows_trans; [by apply Hm|]. by eapply Hf.
Qed.

Lemma growing_expand node : growing (expand node : M _).
Proof.
  intros w w'.
  destruct (expand_effect node w) as (w1 & Hexp & _ & _ & HN & _).
  rewrite Hexp. intros [= <-]. apply expand_dom in Hexp. split.
  - rewrite Hexp. apply union_subseteq_l.
  - intros s. unfold getN. rewrite HN. lia.
Qed.

Lemma growing_simulate fuel node : growing (simulate fuel node : M _).
Proof.
  intros w w' [Hself _]%simulate_loop_frame. unfold grows, getN.
  rewrite Hself. split; [done|]. intros s. lia.
Qed.

Lemma growing_backpropagate path r : growing (backpropagate path r : M _).
Proof.
  intros w w'.
  destruct (backpropagate_effect path r w) as (w1 & -> & Hc & _ & _ & _ & HN & _).
  intros [= <-]. split; [by rewrite Hc|]. intros s. rewrite HN. lia.
Qed.

(** X3.  Whatever their outcome, [rollout] and [choose] forget nothing:
    every key of [self.children] is still a key afterwards and no visit
    count has gone down. *)
Theorem engine_only_grows :
  (∀ fuel node, growing (rollout fuel node : M _))
  ∧ (∀ node, growing (choose node : M _)).
Proof.
  split.
  - intros fuel node. unfold rollout.
    apply growing_bind; [apply growing_neutral, neutral_select_loop|].
    intros path. apply growing_bind.
    { apply growing_neutral. unfold py_last.
      destruct (last path); [apply neutral_ret|apply neutral_raise]. }
    intros leaf. apply growing_bind; [apply growing_expand|].
    intros _. apply growing_bind; [apply growing_simulate|].
    intros r. apply growing_backpropagate.
  - intros node. apply growing_neutral, neutral_choose.
Qed.

(** ** Rollouts in reachable worlds *)

Lemma rollout_outcome fuel node w :
  Inv w →
  (∃ w', rollout fuel node w = Ok tt w') ∨ rollout fuel node w = OutOfFuel.
Proof.
  intros HInv. unfold rollout, bind.
  destruct (select fuel node w) as [path w1|e w1|] eqn:Hsel; [| |by right].
  2:{ by apply select_loop_no_raise in Hsel. }
  destruct (select_returns_path_facts _ _ _ _ _ Hsel) as (Hhead & _).
  unfold py_last. destruct (last path) as [leaf|] eqn:Hlast.
  2:{ apply last_None in Hlast. by subst. }
  unfold ret. cbv beta iota.
  destruct (expand_effect leaf w1) as (w2 & -> & _).
  destruct (simulate fuel leaf w2) as [r w3|e w3|] eqn:Hsim; [| |by right].
  2:{ by apply simulate_loop_no_raise in Hsim. }
  destruct (backpropagate_effect path r w3) as (w4 & -> & _). left. eauto.
Qed.

(** X4.  In a reachable world a rollout raises no exception, from
    whatever state it is started: it returns, or it is still running when
    the fuel is spent. *)
Theorem rollout_never_raises fuel node w :
  reachable w →
  (∃ w', rollout fuel node w = Ok tt w') ∨ rollout fuel node w = OutOfFuel.
Proof. intros HInv%reachable_Inv. by apply rollout_outcome. Qed.

Lemma reachable_unvisited w :
  reachable w →
  ∀ n, n ∉ dom (children (self w)) → getN w n = 0%nat ∧ getQ w n = 0.
Proof.
  induction 1 as [weight h g|w fuel node w' _ IH Hrun|w node w' _ IH Hrun].
  - intros n _. unfold getN, getQ. simpl. by rewrite !lookup_empty.
  - apply rollout_effect in Hrun
      as (path & leaf & w1 & w2 & r & w3 & _ & Hleaf & _ & _ & Hchain
          & _ & Hdom & _ & HN & HQ).
    intros n Hn. rewrite Hdom in Hn.
    apply not_elem_of_union in Hn as [Hn Hnleaf].
    assert (n ∉ path) as Hout.
    { intros Hin. destruct (chain_keys _ _ _ _ Hchain Hleaf Hin) as [->|?];
        [|done]. by apply Hnleaf, elem_of_singleton. }
    destruct (IH n Hn) as [HN0 HQ0].
    rewrite HN, HQ, HN0, HQ0, occurrences_not_in by done.
    rewrite gain_not_in by (by rewrite elem_of_reverse). split; [done|ring].
  - apply (neutral_choose node) in Hrun as [Hc _ _ HN HQ].
    intros n. rewrite <- Hc, <- HN, <- HQ. apply IH.
Qed.

(** X5.  In a reachable world the expanded states are exactly the visited
    ones: a state is a key of [self.children] if and only if its visit
    count is at least 1.  The set recorded for a key is the set
    [find_children] gives, and a state that is no key has visit count 0 and
    cumulative reward 0. *)
Theorem expanded_iff_visited w :
  reachable w →
  ∀ s, (s ∈ dom (children (self w)) ↔ (1 ≤ getN w s)%nat)
     ∧ (s ∈ dom (children (self w)) →
        children_of w s = Some (find_children s))
     ∧ (s ∉ dom (children (self w)) → getN w s = 0%nat ∧ getQ w s = 0).
Proof.
  intros Hreach s. pose proof (reachable_Inv _ Hreach) as [Hsets Hvisited].
  pose proof (reachable_unvisited _ Hreach s) as Hunvisited.
  split_and!; [split; [by apply Hvisited|]| |done].
  - intros HN. destruct (decide (s ∈ dom (children (self w)))) as [|Hout];
      [done|]. destruct (Hunvisited Hout). lia.
  - intros [l Hl]%elem_of_dom. unfold children_of. rewrite Hl. simpl. eauto.
Qed.

(** ** Rewards between 0 and 1 *)

Lemma flip_range (r : Qc) : 0 <= r → r <= 1 → 0 <= flip r ∧ flip r <= 1.
Proof.
  intros H0 H1. unfold flip. split.
  - by apply Qcle_minus_iff in H1.
  - apply Qcle_minus_iff. by replace (1 + - (1 - r)) with r by ring.
Qed.

Lemma simulate_loop_range fuel node flag w r w' :
  (∀ n, is_terminal n = true → 0 <= reward n ∧ reward n <= 1) →
  simulate_loop fuel node flag w = Ok r w' → 0 <= r ∧ r <= 1.
Proof.
  intros Hrange. revert node flag w.
  induction fuel as [|fuel IH]; intros node flag w; [done|]. simpl.
  destruct (is_terminal node) eqn:Hterm.
  - intros [= <- _]. destruct (Hrange node Hterm) as [H0 H1].
    destruct flag; [by apply flip_range|done].
  - unfold bind, random_child.
    destruct (find_random_child node (rng w)) as [node' g']. apply IH.
Qed.

Lemma of_nat_add (a b : nat) : of_nat (a + b) = of_nat a + of_nat b.
Proof. unfold of_nat. by rewrite Nat2Z.inj_add, Z2Qc_inj_add. Qed.

Lemma of_nat_0 : of_nat 0 = 0.
Proof. apply Z2Qc_inj_0. Qed.

Lemma of_nat_1 : of_nat 1 = 1.
Proof. apply Z2Qc_inj_1. Qed.

Lemma gain_range (s : Node) (nodes : list Node) (r : Qc) :
  0 <= r → r <= 1 →
  0 <= gain s nodes r ∧ gain s nodes r <= of_nat (occurrences s nodes).
Proof.
  revert r. induction nodes as [|x nodes IH]; intros r H0 H1.
  { cbn [gain occurrences]. rewrite of_nat_0. split; apply Qcle_refl. }
  destruct (flip_range r H0 H1) as [Hf0 Hf1].
  destruct (IH (flip r) Hf0 Hf1) as [Hg0 Hg1].
  cbn [gain occurrences]. rewrite of_nat_add. split.
  - rewrite <- (Qcplus_0_l 0). apply Qcplus_le_compat; [|done].
    case_decide; [done|apply Qcle_refl].
  - apply Qcplus_le_compat; [|done].
    case_decide; [by rewrite of_nat_1|rewrite of_nat_0; apply Qcle_refl].
Qed.

Lemma Qcdiv_le_1 (a b : Qc) : a <= b → 0 < b → a / b <= 1.
Proof.
  intros Hab Hb. unfold Qcdiv.
  rewrite <- (Qcmult_inv_r b) by (intros ->; by apply Qclt_not_eq in Hb).
  apply Qcmult_le_compat_r; [done|]. by apply Qclt_le_weak, Qcinv_pos.
Qed.

(** X6.  If every terminal state has a reward between 0 and 1, then in a
    reachable world the cumulative reward of every state lies between 0
    and its visit count; so the mean reward of a visited state lies between
    0 and 1. *)
Theorem cumulative_reward_bounds w :
  (∀ n, is_terminal n = true → 0 <= reward n ∧ reward n <= 1) →
  reachable w →
  ∀ s, 0 <= getQ w s
     ∧ getQ w s <= of_nat (getN w s)
     ∧ ((1 ≤ getN w s)%nat →
        0 <= getQ w s / of_nat (getN w s)
        ∧ getQ w s / of_nat (getN w s) <= 1).
Proof.
  intros Hrange Hreach.
  assert (∀ s, 0 <= getQ w s ∧ getQ w s <= of_nat (getN w s)) as Hbounds.
  { induction Hreach as [weight h g|w fuel node w' _ IH Hrun|w node w' _ IH Hrun].
    - intros s. unfold getQ, getN. simpl. rewrite !lookup_empty. simpl.
      rewrite of_nat_0. split; apply Qcle_refl.
    - apply rollout_effect in Hrun
        as (path & leaf & w1 & w2 & r & w3 & _ & _ & _ & _ & _
            & Hsim & _ & _ & HN & HQ).
      apply simulate_loop_range in Hsim as [Hr0 Hr1]; [|done].
      intros s. destruct (IH s) as [HQ0 HQN].
      destruct (gain_range s (reverse path) r Hr0 Hr1) as [Hg0 Hg1].
      rewrite occurrences_reverse in Hg1.
      rewrite HN, HQ, of_nat_add. split.
      + rewrite <- (Qcplus_0_l 0). by apply Qcplus_le_compat.
      + by apply Qcplus_le_compat.
    - apply (neutral_choose node) in Hrun as [_ _ _ HN HQ].
      intros s. rewrite <- HN, <- HQ. apply IH. }
  intros s. destruct (Hbounds s) as [HQ0 HQN]. split_and!; [done..|].
  intros Hvisited. apply of_nat_pos in Hvisited. split.
  - by apply Qcdiv_nonneg.
  - by apply Qcdiv_le_1.
Qed.

(** ** [uct_select]: what it returns and how it fails *)

(** X7.  When the set recorded for [node] is not empty, all its members
    are keys of [self.children] visited at least once, and [node] has been
    visited at least once, [uct_select node] returns a member of the set
    whose upper confidence bound, mean reward plus the exploration weight
    times [sqrt (log N[node] / N[child])], no other member exceeds.  Every
    count, reward and recorded set reads afterwards as before. *)
Theorem uct_select_maximizes w node l cs :
  stored w node l cs → cs ≠ ∅ →
  (∀ c, c ∈ cs → c ∈ dom (children (self w)) ∧ (1 ≤ getN w c)%nat) →
  (1 ≤ getN w node)%nat →
  ∃ n w', uct_select node w = Ok n w'
    ∧ n ∈ cs
    ∧ (∀ c, c ∈ cs → ext_le (uct_value w node c) (uct_value w node n))
    ∧ children (self w') = children (self w) ∧ heap w' = heap w
    ∧ ∀ s, getN w' s = getN w s ∧ getQ w' s = getQ w s.
Proof.
  intros Hstored Hne Hchildren Hnode.
  destruct (uct_select_ok w node l cs)
    as (n & w' & Huct & Hin & [Hc _ Hh HN HQ] & Hbest); [done..|].
  exists n, w'. split_and!; done.
Qed.

Section MaxRaises.
Variables (key : Node → M ext) (e : exn) (P : World → Prop).
Hypothesis key_outcome : ∀ n w, P w →
  (∃ v w', key n w = Ok v w' ∧ P w') ∨ (∃ w', key n w = Raise e w' ∧ P w').

Lemma max_loop_raises it maxitem maxval w :
  (∃ n, n ∈ it ∧ ∀ w, P w → ∃ w', key n w = Raise e w' ∧ P w') →
  P w →
  ∃ w', max_loop key maxitem maxval it w = Raise e w' ∧ P w'.
Proof.
  revert maxitem maxval w.
  induction it as [|item it IH]; intros maxitem maxval w (n & Hn & Hraise) Hw.
  { by apply elem_of_nil in Hn. }
  simpl. unfold bind.
  destruct (key_outcome item w Hw) as [(v & w1 & Hitem & Hw1)|(w1 & -> & Hw1)];
    [|eauto].
  rewrite Hitem.
  assert (n ∈ it) as Hn'.
  { apply elem_of_cons in Hn as [->|?]; [|done].
    destruct (Hraise w Hw) as (w2 & Hitem' & _). congruence. }
  destruct (ext_ltb maxval v); apply IH; eauto.
Qed.

Lemma py_max_raises it w :
  (∃ n, n ∈ it ∧ ∀ w, P w → ∃ w', key n w = Raise e w' ∧ P w') →
  P w →
  ∃ w', py_max key it w = Raise e w' ∧ P w'.
Proof.
  intros (n & Hn & Hraise) Hw. destruct it as [|item it].
  { by apply elem_of_nil in Hn. }
  simpl. unfold bind.
  destruct (key_outcome item w Hw) as [(v & w1 & Hitem & Hw1)|(w1 & -> & Hw1)];
    [|eauto].
  rewrite Hitem. apply max_loop_raises; [|done].
  exists n. split; [|done].
  apply elem_of_cons in Hn as [->|?]; [|done].
  destruct (Hraise w Hw) as (w2 & Hitem' & _). congruence.
Qed.

End MaxRaises.

Lemma uct_unvisited w0 vertex n w :
  getN w0 n = 0%nat → weq w0 w →
  ∃ w', uct vertex n w = Raise ZeroDivisionError w' ∧ weq w0 w'.
Proof.
  intros Hn Hw. unfold uct, bind.
  destruct (Q_getitem_read n w) as (w1 & -> & Hw1).
  destruct (N_getitem_read n w1) as (w2 & -> & Hw2).
  assert (weq w0 w1) as Hw01 by eauto using weq_trans.
  rewrite <- (weq_N _ _ Hw01), Hn. simpl.
  exists w2. split; [done|]. eauto using weq_trans.
Qed.

(** X8.  How [uct_select node] fails.  It raises [KeyError] when [node]
    is no key of [self.children]; [AssertionError] when a recorded child
    is no key; [ValueError], from [math.log], when all children are keys
    but [node] has visit count 0; and [ZeroDivisionError] when all
    children are keys, [node] has been visited, and some child has visit
    count 0.  In each case every count, reward and recorded set reads as
    before. *)
Theorem uct_select_failures w node :
  (node ∉ dom (children (self w)) →
   uct_select node w = Raise KeyError w)
  ∧ (∀ l cs c, stored w node l cs → c ∈ cs →
       c ∉ dom (children (self w)) →
       uct_select node w = Raise AssertionError w)
  ∧ (∀ l cs, stored w node l cs →
       (∀ c, c ∈ cs → c ∈ dom (children (self w))) →
       getN w node = 0%nat →
       ∃ w', uct_select node w = Raise ValueError w' ∧ weq w w')
  ∧ (∀ l cs c, stored w node l cs →
       (∀ c, c ∈ cs → c ∈ dom (children (self w))) →
       (1 ≤ getN w node)%nat →
       c ∈ cs → getN w c = 0%nat →
       ∃ w', uct_select node w = Raise ZeroDivisionError w' ∧ weq w w').
Proof.
  split_and!.
  - intros Hkey%not_elem_of_dom. unfold uct_select, bind, children_getitem.
    by rewrite Hkey.
  - intros l cs c [Hl Hcs] Hc Hout.
    unfold uct_select, bind, children_getitem, set_read, children_keys.
    rewrite Hl, Hcs.
    assert (forallb (λ n, bool_decide (n ∈ dom (children (self w))))
              (set_iter cs) = false) as ->; [|done].
    apply not_true_iff_false. intros Hall.
    apply Is_true_true, forallb_True, Forall_forall
      with (x := c) in Hall; [|by apply set_iter_elem].
    by apply bool_decide_unpack in Hall.
  - intros l cs [Hl Hcs] Hkeys Hnode.
    unfold uct_select, bind, children_getitem, set_read, children_keys.
    rewrite Hl, Hcs.
    assert (forallb (λ n, bool_decide (n ∈ dom (children (self w))))
              (set_iter cs) = true) as ->.
    { apply Is_true_true, forallb_True, Forall_forall. intros c Hc.
      apply bool_decide_pack, Hkeys. by apply set_iter_elem. }
    simpl. destruct (N_getitem_read node w) as (w1 & -> & Hw1).
    rewrite Hnode. simpl. by exists w1.
  - intros l cs c [Hl Hcs] Hkeys Hnode Hc Hzero.
    unfold uct_select, bind, children_getitem, set_read, children_keys.
    rewrite Hl, Hcs.
    assert (forallb (λ n, bool_decide (n ∈ dom (children (self w))))
              (set_iter cs) = true) as ->.
    { apply Is_true_true, forallb_True, Forall_forall. intros c' Hc'.
      apply bool_decide_pack, Hkeys. by apply set_iter_elem. }
    simpl. destruct (N_getitem_read node w) as (w1 & -> & Hw1).
    unfold py_log.
    destruct (getN w node =? 0)%nat eqn:E; [apply Nat.eqb_eq in E; lia|].
    unfold ret at 1.
    rewrite <- (weq_children _ _ Hw1), Hl, <- (weq_heap _ _ Hw1), Hcs.
    apply (py_max_raises _ ZeroDivisionError (weq w)); [|by exists c; split;
      [apply set_iter_elem|intros w2 Hw2; by apply uct_unvisited]|done].
    intros n w2 Hw2.
    destruct (decide (getN w n = 0%nat)) as [Hn|Hn].
    + right. by apply uct_unvisited.
    + left. eexists. apply uct_spec; [done|lia|done].
Qed.

(** ** [simulate]: what it touches and when it returns *)

Lemma never_terminal_S k node g :
  never_terminal (S k) node g
  = negb (is_terminal node)
    && never_terminal k (find_random_child node g).1 (find_random_child node g).2.
Proof.
  unfold never_terminal. cbn [seq forallb playout fst]. f_equal.
  rewrite <- (fmap_S_seq 0 k).
  destruct (find_random_child node g) as [node' g'] eqn:Hdraw. cbn [fst snd].
  induction (seq 0 k) as [|i l IH]; [done|].
  cbn [fmap list_fmap forallb playout]. by rewrite IH, Hdraw.
Qed.

Lemma simulate_loop_exhausts fuel node flag w :
  never_terminal fuel node (rng w) = true →
  simulate_loop fuel node flag w = OutOfFuel.
Proof.
  revert node flag w. induction fuel as [|fuel IH]; intros node flag w; [done|].
  rewrite never_terminal_S. intros [Hnt Hrest]%andb_prop.
  apply negb_true_iff in Hnt. simpl. rewrite Hnt. unfold bind, random_child.
  destruct (find_random_child node (rng w)) as [node' g']. by apply IH.
Qed.

Lemma simulate_loop_returns_ends fuel node flag w r w' :
  simulate_loop fuel node flag w = Ok r w' →
  ∃ k, (k < fuel)%nat ∧ playout_ends k node (rng w) = true.
Proof.
  revert node flag w. induction fuel as [|fuel IH]; intros node flag w; [done|].
  simpl. destruct (is_terminal node) eqn:Hterm.
  - intros _. exists 0%nat. split; [lia|]. unfold playout_ends. simpl.
    by rewrite Hterm.
  - unfold bind, random_child.
    destruct (find_random_child node (rng w)) as [node' g'] eqn:Hdraw.
    intros (k & Hk & Hends)%IH. exists (S k). split; [lia|].
    rewrite playout_ends_S, Hterm, Hdraw. done.
Qed.

(** X9.  [simulate] touches nothing of the engine and no set object: only
    the random source moves on.  It raises no exception.  It returns
    exactly when the random walk from its argument meets a terminal state
    before the fuel is spent; on a walk that meets none it is still
    running however much fuel it is given. *)
Theorem simulate_only_walks :
  (∀ fuel node w w',
     final (simulate fuel node w) = Some w' →
     self w' = self w ∧ heap w' = heap w)
  ∧ (∀ fuel node w e w', simulate fuel node w ≠ Raise e w')
  ∧ (∀ fuel node w r w',
       simulate fuel node w = Ok r w' →
       ∃ k, (k < fuel)%nat ∧ playout_ends k node (rng w) = true)
  ∧ (∀ fuel node w,
       never_terminal fuel node (rng w) = true →
       simulate fuel node w = OutOfFuel).
Proof.
  split_and!.
  - intros fuel node w w'. apply simulate_loop_frame.
  - intros fuel node w e w'. apply simulate_loop_no_raise.
  - intros fuel node w r w'. apply simulate_loop_returns_ends.
  - intros fuel node w. apply simulate_loop_exhausts.
Qed.

(** ** [select] on a cycle *)

Lemma select_at_run w0 root node path w fuel p w' :
  select_at w0 root node path w →
  select_loop fuel root [] w0 = Ok p w' →
  ∃ fuel', select_loop fuel' node path w = Ok p w'.
Proof.
  intros Hat Hrun.
  induction Hat as [|node path w path' w1 node' w2 _ IH Hturn Huct];
    [by exists fuel|].
  destruct IH as ([|fuel'] & Hrun'); [done|]. exists fuel'.
  simpl in Hrun'. unfold bind in Hrun'. by rewrite Hturn, Huct in Hrun'.
Qed.

Lemma select_cycle w0 root node path w fuel p w' :
  select_at w0 root node path w → node ∈ path →
  select fuel root w0 ≠ Ok p w'.
Proof.
  intros Hat Hin Hrun. unfold select in Hrun.
  destruct (select_loop_NoDup _ _ _ _ _ Hrun) as [Hnd _].
  destruct (select_at_run _ _ _ _ _ _ _ _ Hat Hrun) as (fuel' & Hrun').
  rewrite select_loop_path in Hrun'.
  destruct (select_loop fuel' node [] w) as [p0 w0'| |] eqn:Hrun0; [|done..].
  simpl in Hrun'. injection Hrun' as <- <-.
  destruct (select_loop_NoDup _ _ _ _ _ Hrun0) as [_ Hhead].
  apply NoDup_app in Hnd as (_ & Hdisjoint & _).
  apply (Hdisjoint node Hin). by apply head_Some_elem_of.
Qed.

(** X10.  [select] has no guard against cycles: once its loop starts a
    turn with a state the path already holds, it never returns, and
    neither does the rollout that called it. *)
Theorem select_hangs_on_a_cycle w0 root node path w :
  select_at w0 root node path w →
  node ∈ path →
  (∀ fuel p w', select fuel root w0 ≠ Ok p w')
  ∧ (∀ fuel w', rollout fuel root w0 ≠ Ok tt w').
Proof.
  intros Hat Hin. split.
  - intros fuel p w'. by eapply select_cycle.
  - intros fuel w' (p & leaf & w1 & _ & _ & _ & Hsel & _)%rollout_inv.
    by eapply select_cycle.
Qed.

(** ** Rollouts of games that cannot go on for ever *)

Section Ranked.
Variable rank : Node → nat.
Hypothesis rank_children : ∀ n c, c ∈ find_children n → (rank c < rank n)%nat.
Hypothesis rank_random : ∀ n g,
  is_terminal n = false → (rank (find_random_child n g).1 < rank n)%nat.

Lemma select_loop_returns fuel node w :
  Inv w → (rank node < fuel)%nat →
  ∃ p w', select_loop fuel node [] w = Ok p w'
    ∧ ∃ leaf, last p = Some leaf ∧ (rank leaf ≤ rank node)%nat.
Proof.
  revert node w. induction fuel as [|fuel IH]; intros node w HInv Hfuel; [lia|].
  simpl. unfold bind.
  destruct (select_turn_cases node [] w)
    as [(d & Hturn & _)|[(Hturn & l & cs & Hstored & Hne & Hknown)
                        |(_ & Hkey & Hdangling)]].
  - rewrite Hturn. simpl. eexists _, _. split; [reflexivity|].
    apply select_turn_inl in Hturn
      as [[Hd _]|(n & cs & Hd & Hcs & Hn & _)]; simpl in Hd.
    + injection Hd as ->. exists node. split; [done|lia].
    + injection Hd as ->. exists n. split; [done|].
      assert (cs = find_children node) as ->.
      { destruct HInv as [Hsets _]. unfold children_of in Hcs.
        destruct (children (self w) !! node) as [l|] eqn:Hl; [|done].
        simpl in Hcs. rewrite (Hsets _ _ Hl) in Hcs. congruence. }
      apply rank_children in Hn. lia.
  - rewrite Hturn. simpl.
    destruct (Inv_uct_pre w node l cs) as [Hchildren Hnode]; [done..|].
    destruct (uct_select_ok w node l cs)
      as (n & w1 & -> & Hn & Hw1 & _); [done..|].
    assert (cs = find_children node) as ->.
    { destruct HInv as [Hsets _], Hstored as [Hl Hcs].
      rewrite (Hsets _ _ Hl) in Hcs. congruence. }
    apply rank_children in Hn.
    destruct (IH n w1) as (p1 & w' & Hrun & leaf & Hlast & Hrank);
      [by apply (Inv_weq w)|lia|].
    rewrite select_loop_path, Hrun. simpl. eexists _, _. split; [reflexivity|].
    exists leaf. split; [|lia].
    destruct (select_loop_NoDup _ _ _ _ _ Hrun) as [_ Hhead].
    destruct p1; [done|]. by rewrite last_cons, Hlast.
  - exfalso. apply elem_of_dom in Hkey as [l Hl].
    unfold children_of in Hdangling. rewrite Hl in Hdangling.
    simpl in Hdangling. destruct HInv as [Hsets _].
    by rewrite (Hsets _ _ Hl) in Hdangling.
Qed.

Lemma simulate_loop_returns fuel node flag w :
  (rank node < fuel)%nat → ∃ r w', simulate_loop fuel node flag w = Ok r w'.
Proof.
  revert node flag w.
  induction fuel as [|fuel IH]; intros node flag w Hfuel; [lia|]. simpl.
  destruct (is_terminal node) eqn:Hterm; [by eexists _, _|].
  unfold bind, random_child. pose proof (rank_random node (rng w) Hterm) as Hlt.
  destruct (find_random_child node (rng w)) as [node' g']. simpl in Hlt.
  apply IH. lia.
Qed.

Lemma rollout_returns_ranked fuel root w :
  Inv w → (rank root < fuel)%nat → ∃ w', rollout fuel root w = Ok tt w'.
Proof.
  intros HInv Hfuel. unfold rollout, bind, select.
  destruct (select_loop_returns fuel root w HInv Hfuel)
    as (path & w1 & -> & leaf & Hlast & Hrank).
  unfold py_last. rewrite Hlast. unfold ret. cbv beta iota.
  destruct (expand_effect leaf w1) as (w2 & -> & _).
  destruct (simulate_loop_returns fuel leaf true w2) as (r & w3 & Hsim); [lia|].
  unfold simulate. rewrite Hsim.
  destruct (backpropagate_effect path r w3) as (w4 & -> & _). eauto.
Qed.

End Ranked.

(** X11.  Suppose the states can be ranked by natural numbers so that
    every successor, enumerated or drawn at random, has a smaller rank than
    the state it comes from.  Then in a reachable world [rollout root]
    returns, given more fuel than the rank of [root]: neither of its two
    loops runs for ever. *)
Theorem rollout_returns_on_ranked_games (rank : Node → nat) fuel root w :
  (∀ n c, c ∈ find_children n → (rank c < rank n)%nat) →
  (∀ n g, is_terminal n = false →
     (rank (find_random_child n g).1 < rank n)%nat) →
  reachable w →
  (rank root < fuel)%nat →
  ∃ w', rollout fuel root w = Ok tt w'.
Proof.
  intros Hchildren Hrandom HInv%reachable_Inv Hfuel.
  by apply (rollout_returns_ranked rank).
Qed.

(** ** More on [choose] *)

(** X12.  In a reachable world, on a non-terminal state that has been
    expanded and has successors, [choose] returns one of the successors
    [find_children] enumerates. *)
Theorem choose_returns_a_successor w root :
  reachable w →
  is_terminal root = false →
  root ∈ dom (children (self w)) →
  find_children root ≠ ∅ →
  ∃ c w', choose root w = Ok c w' ∧ c ∈ find_children root.
Proof.
  intros [Hsets _]%reachable_Inv Hterm [l Hl]%elem_of_dom Hne.
  unfold choose, bind. rewrite Hterm.
  rewrite children_contains_eq, bool_decide_eq_true_2 by (by rewrite Hl).
  simpl. unfold children_getitem, set_read. rewrite Hl, (Hsets _ _ Hl).
  destruct (py_max_spec score (mean_reward w) (weq w)
              (set_iter (find_children root)) w)
    as (c & w' & Hmax & _ & Hin & _).
  { intros n w1 _ Hw1. by apply score_spec. }
  { by rewrite set_iter_nil. }
  { apply weq_refl. }
  exists c, w'. split; [done|]. by apply set_iter_elem.
Qed.

Lemma ext_ltb_trans (a b c : ext) :
  ext_ltb a b = true → ext_ltb b c = true → ext_ltb a c = true.
Proof.
  destruct a, b, c; simpl; try done.
  rewrite !Qc_ltb_lt. apply Qclt_trans.
Qed.

Lemma ext_le_ltb_trans (a b c : ext) :
  ext_le a b → ext_ltb b c = true → ext_ltb a c = true.
Proof.
  unfold ext_le. destruct a, b, c; simpl; try done.
  rewrite Qc_ltb_ge, !Qc_ltb_lt. apply Qcle_lt_trans.
Qed.

Section MaxFirst.
Variables (key : Node → M ext) (f : Node → ext) (P : World → Prop).
Hypothesis key_reads : ∀ n w, P w → ∃ w', key n w = Ok (f n) w' ∧ P w'.

Lemma max_loop_first it maxitem w :
  P w →
  ∃ c w', max_loop key maxitem (f maxitem) it w = Ok c w' ∧ P w'
    ∧ ((c = maxitem ∧ ∀ y, y ∈ it → ext_le (f y) (f c))
       ∨ (ext_ltb (f maxitem) (f c) = true ∧ first_max f it c)).
Proof.
  revert maxitem w. induction it as [|item it IH]; intros maxitem w Hw.
  { exists maxitem, w. split_and!; [done..|]. left. split; [done|].
    by intros y ?%elem_of_nil. }
  simpl. unfold bind. destruct (key_reads item w Hw) as (w1 & -> & Hw1).
  destruct (ext_ltb (f maxitem) (f item)) eqn:Hlt.
  - destruct (IH item w1 Hw1) as (c & w' & Hrun & Hw' & Hcase).
    rewrite Hrun. exists c, w'. split_and!; [done..|]. right.
    destruct Hcase as [[Hc Hrest]|(Hgt & pre & post & Hit & Hpre & Hpost)].
    + subst c. split; [done|]. exists [], it. split_and!; [done| |done].
      by intros y ?%elem_of_nil.
    + split; [by eapply ext_ltb_trans|]. subst it.
      exists (item :: pre), post. split_and!; [done| |done].
      intros y [->|Hy]%elem_of_cons; auto.
  - destruct (IH maxitem w1 Hw1) as (c & w' & Hrun & Hw' & Hcase).
    rewrite Hrun. exists c, w'. split_and!; [done..|].
    destruct Hcase as [[Hc Hrest]|(Hgt & pre & post & Hit & Hpre & Hpost)].
    + subst c. left. split; [done|]. intros y [->|Hy]%elem_of_cons; auto.
    + right. split; [done|]. subst it.
      exists (item :: pre), post. split_and!; [done| |done].
      intros y [->|Hy]%elem_of_cons; [|auto].
      by apply (ext_le_ltb_trans _ (f maxitem)).
Qed.

Lemma py_max_first it w :
  it ≠ [] → P w →
  ∃ c w', py_max key it w = Ok c w' ∧ P w' ∧ first_max f it c.
Proof.
  intros Hit Hw. destruct it as [|item it]; [done|]. simpl. unfold bind.
  destruct (key_reads item w Hw) as (w1 & -> & Hw1).
  destruct (max_loop_first it item w1 Hw1) as (c & w' & Hrun & Hw' & Hcase).
  rewrite Hrun. exists c, w'. split_and!; [done..|]. clear Hit.
  destruct Hcase as [[Hc Hrest]|(Hgt & pre & post & Hit & Hpre & Hpost)].
  - subst c. exists [], it. split_and!; [done| |done].
    by intros y ?%elem_of_nil.
  - subst it. exists (item :: pre), post. split_and!; [done| |done].
    intros y [->|Hy]%elem_of_cons; auto.
Qed.

End MaxFirst.

(** X13.  How [choose] breaks ties: of the recorded children it returns
    the first, in the order the set hands them out, whose mean reward no
    other child exceeds; every child before it scores strictly less.  So
    when no child has been visited it returns the first child of all. *)
Theorem choose_takes_the_first_best w root l cs :
  is_terminal root = false →
  stored w root l cs →
  cs ≠ ∅ →
  ∃ c w', choose root w = Ok c w'
    ∧ first_max (mean_reward w) (set_iter cs) c
    ∧ ((∀ c', c' ∈ cs → getN w c' = 0%nat) → head (set_iter cs) = Some c).
Proof.
  intros Hterm [Hl Hcs] Hne. unfold choose, bind. rewrite Hterm.
  rewrite children_contains_eq, bool_decide_eq_true_2 by (by rewrite Hl).
  simpl. unfold children_getitem, set_read. rewrite Hl, Hcs.
  destruct (py_max_first score (mean_reward w) (weq w)
              (λ n w1 Hw1, score_spec w n w1 Hw1) (set_iter cs) w)
    as (c & w' & Hmax & _ & Hfirst).
  { by rewrite set_iter_nil. }
  { apply weq_refl. }
  exists c, w'. split_and!; [done..|].
  intros Hunvisited. destruct Hfirst as (pre & post & Hit & Hpre & _).
  destruct pre as [|y pre]; [by rewrite Hit|].
  specialize (Hpre y (list_elem_of_here _ _)).
  assert (c ∈ cs) as Hc.
  { apply set_iter_elem. rewrite Hit. apply elem_of_app. right.
    apply list_elem_of_here. }
  unfold mean_reward in Hpre. rewrite (Hunvisited c Hc) in Hpre.
  simpl in Hpre. by destruct (getN w y =? 0)%nat.
Qed.

(** ** The first rollout *)

(** X14.  The first rollout on a freshly constructed engine, when the
    random walk from [root] ends after [k] draws and the fuel exceeds [k]:
    it returns; [root] is then the only expanded state, recorded with the
    set [find_children] gives; its visit count is 1; its cumulative reward
    is the result of the playout; and the random source is where the walk
    left it. *)
Theorem first_rollout fuel k root weight h g :
  playout_ends k root g = true →
  (k < fuel)%nat →
  ∃ w', rollout fuel root (init_world weight h g) = Ok tt w'
    ∧ dom (children (self w')) = {[root]}
    ∧ children_of w' root = Some (find_children root)
    ∧ getN w' root = 1%nat
    ∧ getQ w' root = (if Nat.even k
                      then 1 - reward (playout k root g).1
                      else reward (playout k root g).1)
    ∧ (∀ s, s ≠ root → getN w' s = 0%nat ∧ getQ w' s = 0)
    ∧ rng w' = (playout k root g).2
    ∧ exploration_weight (self w') = weight.
Proof.
  intros Hends Hfuel. destruct fuel as [|fuel]; [lia|].
  set (w0 := init_world weight h g).
  assert (select (S fuel) root w0 = Ok [root] w0) as Hsel.
  { unfold select. simpl. unfold bind. rewrite select_turn_eq. simpl.
    by rewrite lookup_empty. }
  assert (root ∉ dom (children (self w0))) as Hkey
    by (simpl; rewrite dom_empty_L; apply not_elem_of_empty).
  pose proof (expand_new root w0 Hkey) as Hexp.
  set (w2 := set_children _ _) in Hexp.
  destruct (simulate_result k (S fuel) root w2 Hends Hfuel) as (_ & _ & Hsim).
  set (r := if Nat.even k then _ else _) in Hsim.
  set (w3 := set_rng _ w2) in Hsim.
  destruct (backpropagate_single root r w3)
    as (w' & Hbp & Hc & Hh & Hr & HN & HQ & Hother).
  exists w'. split_and!.
  - unfold rollout, bind. rewrite Hsel. simpl. by rewrite Hexp, Hsim.
  - rewrite Hc. unfold w3, w2, w0. simpl.
    by rewrite insert_empty, dom_singleton_L.
  - unfold children_of. rewrite Hc, Hh. unfold w3, w2, w0. simpl.
    rewrite lookup_insert_eq. simpl. by rewrite lookup_insert_eq.
  - rewrite HN. unfold getN, w3, w2, w0. simpl. by rewrite lookup_empty.
  - rewrite HQ. unfold getQ, w3, w2, w0. simpl. rewrite lookup_empty. simpl.
    unfold r. apply Qcplus_0_l.
  - intros s Hs. destruct (Hother s Hs) as [-> ->].
    unfold getN, getQ, w3, w2, w0. simpl. by rewrite !lookup_empty.
  - rewrite Hr. unfold w3. done.
  - destruct (backpropagate_effect [root] r w3) as (w'' & Hbp' & _ & He & _).
    rewrite Hbp in Hbp'. injection Hbp' as <-. by rewrite He.
Qed.

End Theory.

(** * The engine at work on the small game *)

Lemma Toy_trained_reachable k : reachable (Toy.trained k).
Proof.
  unfold Toy.trained.
  destruct (rollouts 8 k 0%nat Toy.w0) as [[] w| |] eqn:Hrun;
    try apply reachable_init.
  eapply reachable_rollouts; [apply reachable_init|exact Hrun].
Qed.

(** Every position of the small game that has no successor is final. *)
Lemma Toy_contract (n : nat) : find_children n = ∅ → is_terminal n = true.
Proof.
  destruct n as [|[|n]]; [| |done]; intros Hempty; exfalso;
    [assert (1%nat ∈ (∅ : gset nat)) as Hin
       by (rewrite <- Hempty; simpl; set_solver)
    |assert (3%nat ∈ (∅ : gset nat)) as Hin
       by (rewrite <- Hempty; simpl; set_solver)];
    by apply not_elem_of_empty in Hin.
Qed.

(** In the game that lists no successor for a position it does not call
    final, one rollout records the empty set for position 0, and [choose]
    then raises. *)
Lemma choose_on_empty_set_raises_witness :
  choose (game := Stalemate.game) 0%nat Stalemate.w1
  = Raise ValueError Stalemate.w1
  ∧ ∀ c w', choose (game := Stalemate.game) 0%nat Stalemate.w1 ≠ Ok c w'.
Proof.
  refine (choose_on_empty_set_raises (game := Stalemate.game)
            Stalemate.w1 0%nat 1%positive _ _).
  - reflexivity.
  - split; vm_compute; reflexivity.
Defined.

(** [choose] is a query only up to reads: looking up the count of a child
    that was never visited stores a zero for it. *)
Example choose_stores_defaults :
  ∃ w', choose 0%nat (Toy.trained 2) = Ok 2%nat w'
    ∧ N_ (self (Toy.trained 2)) !! 1%nat = None
    ∧ N_ (self w') !! 1%nat = Some 0%nat.
Proof. eexists. vm_compute. split_and!; reflexivity. Qed.

Lemma choose_terminal_raises_witness :
  choose 2%nat Toy.w0 = Raise RuntimeError Toy.w0.
Proof. apply (choose_terminal_raises Toy.w0 2%nat). reflexivity. Defined.

Lemma choose_cold_start_witness :
  choose 0%nat Toy.w0 = Ok 1%nat (set_rng 1%nat Toy.w0).
Proof.
  refine (choose_cold_start Toy.w0 0%nat _ _); [reflexivity|].
  apply not_elem_of_dom. reflexivity.
Defined.

Lemma choose_maximizes_mean_reward_witness :
  ∃ c w', choose 0%nat (Toy.trained 5) = Ok c w'
    ∧ c ∈ ({[1%nat; 2%nat]} : gset nat)
    ∧ (∀ c', c' ∈ ({[1%nat; 2%nat]} : gset nat) →
         ext_le (mean_reward (Toy.trained 5) c') (mean_reward (Toy.trained 5) c))
    ∧ (∀ c', c' ∈ ({[1%nat; 2%nat]} : gset nat) →
         getN (Toy.trained 5) c' = 0%nat →
         mean_reward (Toy.trained 5) c' = NegInf)
    ∧ (∀ c', c' ∈ ({[1%nat; 2%nat]} : gset nat) →
         (1 ≤ getN (Toy.trained 5) c')%nat →
         (1 ≤ getN (Toy.trained 5) c)%nat
         ∧ getQ (Toy.trained 5) c' / of_nat (getN (Toy.trained 5) c')
           <= getQ (Toy.trained 5) c / of_nat (getN (Toy.trained 5) c)).
Proof.
  refine (choose_maximizes_mean_reward (Toy.trained 5) 0%nat 1%positive
            {[1%nat; 2%nat]} Toy_contract (Toy_trained_reachable 5) _ _).
  - reflexivity.
  - split; vm_compute; reflexivity.
Defined.

Lemma simulate_result_witness :
  simulate 3 0%nat Toy.w0 = Ok (1 - reward 4%nat) (set_rng 2%nat Toy.w0).
Proof.
  refine (proj2 (proj2 (simulate_result 2 3 0%nat Toy.w0 _ _)));
    [reflexivity|lia].
Defined.

Lemma rollouts_count_root_witness : getN (Toy.trained 3) 0%nat = 3%nat.
Proof.
  refine (proj1 (rollouts_count_root 8 3 0%nat 1 ∅ 0%nat (Toy.trained 3) _)).
  vm_compute. reflexivity.
Defined.

Lemma uct_select_precondition_witness :
  uct_pre (Toy.trained 5) 0%nat
  ∧ (∃ node' w2, uct_select 0%nat (Toy.trained 5) = Ok node' w2)
  ∧ (∀ fuel e w', select fuel 0%nat (Toy.trained 5) ≠ Raise e w').
Proof.
  refine (uct_select_precondition (Toy.trained 5) 0%nat 0%nat []
            (Toy.trained 5) [0%nat] (Toy.trained 5) _ _ _).
  - apply Toy_trained_reachable.
  - apply select_at_start.
  - vm_compute. reflexivity.
Defined.

Lemma rollout_terminal_root_witness :
  ∃ w', rollout 1 2%nat (Toy.trained 5) = Ok tt w'
    ∧ getN w' 2%nat = (getN (Toy.trained 5) 2%nat + 1)%nat
    ∧ getQ w' 2%nat = getQ (Toy.trained 5) 2%nat + (1 - reward 2%nat).
Proof.
  destruct (rollout_terminal_root 0 2%nat (Toy.trained 5))
    as (w2 & w' & _ & _ & _ & _ & _ & Hrun & HN & HQ).
  - apply Toy_trained_reachable.
  - reflexivity.
  - reflexivity.
  - exists w'. exact (conj Hrun (conj HN HQ)).
Defined.

(** ** More of the engine at work *)

Lemma rollout_updates_the_path_witness :
  ∃ path, head path = Some 0%nat
    ∧ ∀ s, s ∈ path →
        getN (Toy.trained 3) s = (getN (Toy.trained 2) s + 1)%nat.
Proof.
  destruct (rollout_updates_the_path 8 0%nat (Toy.trained 2) (Toy.trained 3))
    as (path & leaf & w1 & _ & Hhead & _ & _ & HN & _).
  - vm_compute. reflexivity.
  - exists path. exact (conj Hhead HN).
Defined.

Lemma select_returns_branch_witness :
  chain (Toy.trained 5) [0%nat; 1%nat; 3%nat].
Proof.
  refine (proj1 (proj2 (proj2
    (select_returns_branch 8 0%nat (Toy.trained 5) [0%nat; 1%nat; 3%nat]
       (Toy.trained 5) _)))).
  vm_compute. reflexivity.
Defined.

Lemma rollout_never_raises_witness :
  (∃ w', rollout 8 0%nat (Toy.trained 5) = Ok tt w')
  ∨ rollout 8 0%nat (Toy.trained 5) = OutOfFuel.
Proof.
  exact (rollout_never_raises 8 0%nat (Toy.trained 5) (Toy_trained_reachable 5)).
Defined.

Lemma expanded_iff_visited_witness :
  (3%nat ∈ dom (children (self (Toy.trained 5)))
   ↔ (1 ≤ getN (Toy.trained 5) 3%nat)%nat)
  ∧ (3%nat ∈ dom (children (self (Toy.trained 5))) →
     children_of (Toy.trained 5) 3%nat = Some (find_children 3%nat))
  ∧ (3%nat ∉ dom (children (self (Toy.trained 5))) →
     getN (Toy.trained 5) 3%nat = 0%nat ∧ getQ (Toy.trained 5) 3%nat = 0).
Proof.
  exact (expanded_iff_visited (Toy.trained 5) (Toy_trained_reachable 5) 3%nat).
Defined.

Lemma Toy_rewards_in_range (n : nat) :
  is_terminal n = true → 0 <= reward n ∧ reward n <= 1.
Proof.
  intros _. destruct n as [|[|[|[|n]]]]; split; vm_compute; discriminate.
Qed.

Lemma cumulative_reward_bounds_witness :
  0 <= getQ (Toy.trained 5) 1%nat
  ∧ getQ (Toy.trained 5) 1%nat <= of_nat (getN (Toy.trained 5) 1%nat).
Proof.
  destruct (cumulative_reward_bounds (Toy.trained 5) Toy_rewards_in_range
              (Toy_trained_reachable 5) 1%nat) as (H0 & HN & _).
  exact (conj H0 HN).
Defined.

Lemma Toy_children_of_0 (c : nat) :
  c ∈ ({[1%nat; 2%nat]} : gset nat) → c = 1%nat ∨ c = 2%nat.
Proof. rewrite elem_of_union, !elem_of_singleton. tauto. Qed.

Lemma uct_select_maximizes_witness :
  ∃ n w', uct_select 0%nat (Toy.trained 5) = Ok n w'
    ∧ n ∈ ({[1%nat; 2%nat]} : gset nat).
Proof.
  destruct (uct_select_maximizes (Toy.trained 5) 0%nat 1%positive
              {[1%nat; 2%nat]}) as (n & w' & Huct & Hin & _).
  - split; vm_compute; reflexivity.
  - intros Hempty. assert (1%nat ∈ (∅ : gset nat)) as Hin
      by (rewrite <- Hempty; set_solver).
    by apply not_elem_of_empty in Hin.
  - intros c [->| ->]%Toy_children_of_0; (split;
      [apply elem_of_dom; vm_compute; eauto|apply Nat.leb_le; vm_compute; reflexivity]).
  - apply Nat.leb_le. vm_compute. reflexivity.
  - exists n, w'. exact (conj Huct Hin).
Defined.

(** Without a recorded set for its argument, [uct_select] raises
    [KeyError]; and a walk that never ends keeps [simulate] busy. *)
Example uct_select_fresh_raises :
  uct_select 0%nat Toy.w0 = Raise KeyError Toy.w0.
Proof. vm_compute. reflexivity. Qed.

Example simulate_runs_on :
  simulate (game := Cycle.game) 50 2%nat Cycle.w0 = OutOfFuel.
Proof. vm_compute. reflexivity. Qed.

Lemma select_hangs_on_a_cycle_witness :
  (∀ fuel p w', select fuel 0%nat Cycle.w1 ≠ Ok p w')
  ∧ (∀ fuel w', rollout (game := Cycle.game) fuel 0%nat Cycle.w1 ≠ Ok tt w').
Proof.
  eapply (select_hangs_on_a_cycle (game := Cycle.game)
            Cycle.w1 0%nat 0%nat [0%nat]).
  - eapply select_at_next; [apply select_at_start| |];
      vm_compute; reflexivity.
  - apply list_elem_of_here.
Defined.

Lemma rollout_returns_on_ranked_games_witness :
  ∃ w', rollout 3 0%nat (Toy.trained 5) = Ok tt w'.
Proof.
  refine (rollout_returns_on_ranked_games Toy.rank 3 0%nat (Toy.trained 5)
            _ _ (Toy_trained_reachable 5) _).
  - intros [|[|n]] c; simpl.
    + intros [->| ->]%Toy_children_of_0; simpl; lia.
    + rewrite elem_of_union, !elem_of_singleton. intros [->| ->]; simpl; lia.
    + by intros ?%not_elem_of_empty.
  - intros [|[|n]] g; simpl; [destruct (Nat.even g); simpl; lia..|done].
  - simpl. lia.
Defined.

Lemma choose_returns_a_successor_witness :
  ∃ c w', choose 0%nat (Toy.trained 5) = Ok c w' ∧ c ∈ find_children 0%nat.
Proof.
  refine (choose_returns_a_successor (Toy.trained 5) 0%nat
            (Toy_trained_reachable 5) _ _ _).
  - reflexivity.
  - apply elem_of_dom. vm_compute. eauto.
  - intros Hempty. assert (1%nat ∈ (∅ : gset nat)) as Hin
      by (rewrite <- Hempty; simpl; set_solver).
    by apply not_elem_of_empty in Hin.
Defined.

Lemma choose_takes_the_first_best_witness :
  ∃ c w', choose 0%nat (Toy.trained 5) = Ok c w'
    ∧ first_max (mean_reward (Toy.trained 5))
        (set_iter ({[1%nat; 2%nat]} : gset nat)) c.
Proof.
  destruct (choose_takes_the_first_best (Toy.trained 5) 0%nat 1%positive
              {[1%nat; 2%nat]}) as (c & w' & Hchoose & Hfirst & _).
  - reflexivity.
  - split; vm_compute; reflexivity.
  - intros Hempty. assert (1%nat ∈ (∅ : gset nat)) as Hin
      by (rewrite <- Hempty; set_solver).
    by apply not_elem_of_empty in Hin.
  - exists c, w'. exact (conj Hchoose Hfirst).
Defined.

Lemma first_rollout_witness :
  ∃ w', rollout 3 0%nat (init_world 1 ∅ 0%nat) = Ok tt w'
    ∧ dom (children (self w')) = {[0%nat]}
    ∧ getN w' 0%nat = 1%nat.
Proof.
  destruct (first_rollout 3 2 0%nat 1 ∅ 0%nat)
    as (w' & Hrun & Hdom & _ & HN & _).
  - reflexivity.
  - lia.
  - exists w'. exact (conj Hrun (conj Hdom HN)).
Defined.
